(** * The genetic-algorithm search engine of TextAttack
      ([textattack/search_methods/genetic_algorithm.py])

    A shallow embedding of the class [GeneticAlgorithm]: the mutation
    operator [_perturb], the crossover operator [_crossover] and the
    generational loop [_perform_search], followed by the properties of the
    engine that the specification states.

    Conventions of the embedding.
    - Scores are Python floats; they are modelled as rationals ([Q]),
      compared exactly where the code compares Python floats (the sort of
      the population, the test for improvement of the best score).  The
      score differences of [_perturb] are held in a [torch.Tensor]: they
      are binary32 values ([float32]), with the rounding of the conversion
      and of the subtraction.  The selection distribution is modelled over
      [R] in the module [Selection].
    - The object state ([self._search_over]) and the state of the
      collaborators (query budget of the goal function, state of the random
      generator) are threaded explicitly.  Every call to a collaborator is
      recorded in a log, in the order in which the calls are made.
    - A Python exception ([IndexError], [ValueError]) ends the run with
      [Raise]. *)

From Stdlib Require Import QArith Qround Qabs Qpower Reals Qreals Psatz Lia Sorted.
From stdpp Require Import base option list gmap strings.

Set Default Proof Using "Type".

(** ** Data model *)

(** The provenance tag stored under ["last_transformation"]. *)
Definition Transformation : Type := string.

(** Modelled from the spec: the class [AttackedText] is not part of the
    sources at hand; section 3 of the specification describes the text with
    its side-table of attack attributes, "at minimum [modified_indices] ...
    and [newly_modified_indices] ..., plus an optional back-reference to the
    last transformation applied".  These are the entries of [attack_attrs]
    that the engine reads and writes; ["last_transformation"] is an
    optional key (the code tests it with [in]). *)
Record AttackedText : Type := mkAttackedText {
  text : string;
  modified_indices : gset nat;
  newly_modified_indices : gset nat;
  last_transformation : option Transformation
}.

(** Modelled from the spec: the enumeration [GoalFunctionResultStatus] is
    imported from [textattack.goal_function_results], which is not part of
    the sources at hand; section 6 of the specification gives a result "a
    status drawn from {in-progress, succeeded, failed-budget}".  The engine
    only compares a status with [SUCCEEDED]. *)
Inductive GoalFunctionResultStatus : Type :=
| SUCCEEDED
| IN_PROGRESS
| FAILED_BUDGET.

(** Modelled from the spec: the class [GoalFunctionResult] is not part of
    the sources at hand; by section 6 of the specification "a result carries
    a numeric score and a status".  These are the fields the engine reads.
    The Python attribute [attacked_text] of a result is called [result_text]
    here, because [attacked_text] already names the field of
    [PopulationMember]. *)
Record GoalFunctionResult : Type := mkGoalFunctionResult {
  result_text : AttackedText;
  score : Q;
  goal_status : GoalFunctionResultStatus
}.

(** Modelled from the spec: the class [PopulationMember] is imported from
    [textattack.search_methods]; section 3 of the specification describes
    it as a text, its oracle result and the per-position replacement
    budget.  The constructor call of [_crossover] fills exactly these. *)
Record PopulationMember : Type := mkPopulationMember {
  attacked_text : AttackedText;
  result : GoalFunctionResult;
  num_replacements_per_word : list nat
}.

(** ** Exceptions, log of collaborator calls, and the monad of the engine *)

Inductive PyError : Type :=
| IndexError
| ValueError.

Inductive Outcome (A : Type) : Type :=
| Return (a : A)
| Raise (e : PyError).
Arguments Return {A} a.
Arguments Raise {A} e.

(** One entry per call that leaves the engine. *)
Inductive Event : Type :=
| CallTransformations (current : AttackedText) (idx : nat)
| CallGoalResults (batch : list AttackedText)
    (new_results : list GoalFunctionResult) (search_over : bool)
| CallConstraints (child previous : AttackedText) (passed : bool)
| CallCrossoverOperation.

Definition is_oracle_call (ev : Event) : bool :=
  match ev with CallGoalResults _ _ _ => true | _ => false end.

Definition reports_search_over (ev : Event) : bool :=
  match ev with CallGoalResults _ _ true => true | _ => false end.

Definition is_transformation_call (ev : Event) : bool :=
  match ev with CallTransformations _ _ => true | _ => false end.

Definition is_constraint_call (ev : Event) : bool :=
  match ev with CallConstraints _ _ _ => true | _ => false end.

Definition is_failed_validation (ev : Event) : bool :=
  match ev with CallConstraints _ _ false => true | _ => false end.

Definition is_recombination (ev : Event) : bool :=
  match ev with CallCrossoverOperation => true | _ => false end.

Definition count_events (p : Event -> bool) (evs : list Event) : nat :=
  length (filter (fun ev => p ev = true) evs).

(** The position handed to every transformation call, in call order: these
    are the positions chosen by the sampling step of [_perturb]. *)
Definition sampled_positions (evs : list Event) : list nat :=
  omap (fun ev => match ev with CallTransformations _ i => Some i | _ => None end) evs.

Section Engine.

(** [E] is the state of the collaborators: whatever the goal function, the
    transformation, the constraints and the random generator keep between
    calls. *)
Context {E : Type}.

(** The object: its configuration ([__init__]), its abstract methods, the
    methods it inherits from [SearchMethod], and the calls it makes to
    [numpy.random]. *)
Record GeneticAlgorithm : Type := mkGeneticAlgorithm {
  pop_size : nat;
  max_iters : nat;
  temp : Q;
  give_up_if_no_improvement : bool;
  post_crossover_check : bool;
  max_crossover_retries : nat;
  (* abstract methods *)
  _modify_population_member :
    PopulationMember -> AttackedText -> GoalFunctionResult -> nat -> PopulationMember;
  _crossover_operation :
    PopulationMember -> PopulationMember -> E -> (AttackedText * list nat) * E;
  (* the second component is the value of [self._search_over] on return *)
  _initialize_population :
    GoalFunctionResult -> nat -> E -> (list PopulationMember * bool) * E;
  (* collaborators *)
  get_transformations :
    AttackedText -> AttackedText -> list nat -> E -> list AttackedText * E;
  get_goal_results :
    list AttackedText -> E -> (list GoalFunctionResult * bool) * E;
  _check_constraints :
    AttackedText -> AttackedText -> AttackedText -> E -> bool * E;
  (* [np.random.choice(n, 1, p = w / sum w)[0]], given the weights [w] *)
  random_choice : list nat -> E -> nat * E;
  (* [np.random.choice(n, size, p = select_probs)] where [select_probs] is
     the distribution of [Selection.select_probs] for the given temperature
     and scores.  The draw is taken to succeed: numpy raises [ValueError]
     when the binary32 computation of line 229 leaves no distribution
     (overflow of [exp], or a sum that underflows to 0), a path that this
     field does not have *)
  random_choice_parents : Q -> list Q -> nat -> E -> list nat * E;
  (* [np.random.uniform()] *)
  random_uniform : E -> Q * E
}.

Record State : Type := mkState {
  env : E;
  _search_over : bool
}.

Record Run (A : Type) : Type := mkRun {
  outcome : Outcome A;
  final : State;
  events : list Event
}.
Arguments mkRun {A} _ _ _.
Arguments outcome {A} _.
Arguments final {A} _.
Arguments events {A} _.

Definition M (A : Type) : Type := State -> Run A.

Definition ret {A} (a : A) : M A := fun s => mkRun (Return a) s [].

Definition raise {A} (e : PyError) : M A := fun s => mkRun (Raise e) s [].

Definition bind {A B} (m : M A) (k : A -> M B) : M B := fun s =>
  let r := m s in
  match outcome r with
  | Return a =>
      let r' := k a (final r) in
      mkRun (outcome r') (final r') (events r ++ events r')
  | Raise e => mkRun (Raise e) (final r) (events r)
  end.

End Engine.

Arguments GeneticAlgorithm E : clear implicits.
Arguments State E : clear implicits.
Arguments Run E A : clear implicits.
Arguments M E A : clear implicits.
Arguments mkState {E} _ _.
Arguments mkRun {E A} _ _ _.
Arguments outcome {E A} _.
Arguments final {E A} _.
Arguments events {E A} _.

Notation "'do' x <- m ; k" := (bind m (fun x => k))
  (at level 10, x name, m at level 100, k at level 200).
Notation "'do' ' p <- m ; k" := (bind m (fun x => match x with p => k end))
  (at level 10, p pattern, m at level 100, k at level 200).

(** ** Helpers on Python and tensor values *)

Definition Qltb (x y : Q) : bool := negb (Qle_bool y x).

(** [np.count_nonzero]. *)
Definition count_nonzero (v : list nat) : nat :=
  length (filter (fun n => n <> 0) v).

(** [np.sum]. *)
Definition np_sum (v : list nat) : nat := foldr Nat.add 0 v.

(** *** Single-precision tensors

    [torch.Tensor(...)] holds IEEE 754 binary32 values.  A finite value is
    given by the rational it denotes (the two zeros are both [Finite 0]). *)
Inductive float32 : Type :=
| Finite (q : Q)
| PosInf
| NegInf
| NaN.

(** Rounding of a rational to the nearest integer, ties to even. *)
Definition round_half_even (x : Q) : Z :=
  let f := Qfloor x in
  match (x - inject_Z f ?= 1 # 2)%Q with
  | Lt => f
  | Gt => (f + 1)%Z
  | Eq => if Z.even f then f else (f + 1)%Z
  end.

(** [floor (log2 a)] for a positive rational [a]: the difference of the
    bit lengths of numerator and denominator, or one less. *)
Definition ilog2 (a : Q) : Z :=
  let e := (Z.log2 (Qnum a) - Z.log2 (Zpos (Qden a)))%Z in
  if Qle_bool (2 ^ e) a then e else (e - 1)%Z.

(** The exponent of the unit in the last place for the magnitude [a]: 23
    below the exponent of [a], but -149 at least (the subnormals) and 104
    at most (the last binade). *)
Definition quantum (a : Q) : Z :=
  if Qle_bool a 0 then (-149)%Z
  else Z.max (-149) (Z.min 104 (ilog2 a - 23)).

(** The magnitude [a] rounded to 24 significant bits, before the test for
    overflow. *)
Definition round_magnitude (a : Q) : Q :=
  let e := quantum a in
  inject_Z (round_half_even (a / 2 ^ e)%Q) * 2 ^ e.

(** The conversion of a Python float to binary32: round to nearest, ties
    to even; a magnitude that rounds to [2 ^ 128] or more becomes an
    infinity. *)
Definition to_float32 (q : Q) : float32 :=
  let v := round_magnitude (Qabs q) in
  if Qle_bool 0 q then
    if Qle_bool (2 ^ 128) v then PosInf else Finite v
  else
    if Qle_bool (2 ^ 128) v then NegInf else Finite (- v).

(** Subtraction of binary32 values: the exact difference, rounded. *)
Definition sub32 (x y : float32) : float32 :=
  match x, y with
  | NaN, _ => NaN
  | _, NaN => NaN
  | PosInf, PosInf => NaN
  | NegInf, NegInf => NaN
  | PosInf, _ => PosInf
  | NegInf, _ => NegInf
  | Finite _, PosInf => NegInf
  | Finite _, NegInf => PosInf
  | Finite a, Finite b => to_float32 (a - b)
  end.

(** [x < y]; a comparison with [NaN] is false. *)
Definition lt32 (x y : float32) : bool :=
  match x, y with
  | NaN, _ => false
  | _, NaN => false
  | PosInf, _ => false
  | _, NegInf => false
  | NegInf, _ => true
  | Finite _, PosInf => true
  | Finite a, Finite b => Qltb a b
  end.

(** The larger of two values as [Tensor.max()] takes it: [NaN] wins, and
    of two equal values the earlier one stays. *)
Definition max32 (x y : float32) : float32 :=
  match x, y with
  | NaN, _ => NaN
  | _, NaN => NaN
  | _, _ => if lt32 x y then y else x
  end.

(** [x] takes the place of [best] in [Tensor.argmax()]: it is greater, or
    it is the first [NaN]. *)
Definition beats (x best : float32) : bool :=
  match best, x with
  | NaN, _ => false
  | _, NaN => true
  | _, _ => lt32 best x
  end.

(** [x] is not a number. *)
Definition is_nan (x : float32) : bool :=
  match x with
  | NaN => true
  | _ => false
  end.

(** [torch.Tensor(values)]: a tensor of the default type, binary32. *)
Definition Tensor (values : list Q) : list float32 := map to_float32 values.

(** [tensor - scalar] for a binary32 tensor and a Python float: the
    scalar takes the type of the tensor. *)
Definition tensor_sub (t : list float32) (scalar : Q) : list float32 :=
  map (fun x => sub32 x (to_float32 scalar)) t.

(** [Tensor.max()]; [None] stands for the empty tensor, on which the code
    never calls it. *)
Definition tensor_max (t : list float32) : option float32 :=
  match t with
  | [] => None
  | x :: t' => Some (foldl max32 x t')
  end.

(** [Tensor.argmax()]: the position of the first maximal entry.  [best_i]
    and [best] are the position and value of the best entry seen so far,
    [i] the position of the head of [t]. *)
Fixpoint argmax_from (best_i : nat) (best : float32) (i : nat) (t : list float32)
  : nat :=
  match t with
  | [] => best_i
  | x :: t' =>
      if beats x best then argmax_from i x (S i) t'
      else argmax_from best_i best (S i) t'
  end.

Definition argmax (t : list float32) : nat :=
  match t with
  | [] => 0
  | x :: t' => argmax_from 0 x 1 t'
  end.

(** [len(diff_scores) and diff_scores.max() > 0] (line 97). *)
Definition improves (diff_scores : list float32) : bool :=
  match tensor_max diff_scores with
  | Some m => lt32 (Finite 0) m
  | None => false
  end.

(** [torch.Tensor([r.score for r in new_results]) - score] (lines 94-96). *)
Definition diff_scores (new_results : list GoalFunctionResult) (current : Q)
  : list float32 :=
  tensor_sub (Tensor (map score new_results)) current.

(** Position [i] of the tensor [t] holds a number that no entry exceeds,
    the tensor holds numbers only, and every entry before position [i] is
    smaller: [i] is the first position of the greatest entry. *)
Definition first_maximal (t : list float32) (i : nat) : Prop :=
  exists m,
    t !! i = Some m
    /\ (forall j y, t !! j = Some y -> is_nan y = false /\ lt32 m y = false)
    /\ (forall j y, j < i -> t !! j = Some y -> lt32 y m = true).

(** [sorted(population, key=lambda x: x.result.score, reverse=True)]:
    Python's sort is stable, also with [reverse=True]; so is this insertion
    sort: an element moves past strictly greater scores only. *)
Fixpoint insert_by_score (x : PopulationMember) (l : list PopulationMember)
  : list PopulationMember :=
  match l with
  | [] => [x]
  | y :: l' =>
      if Qltb (score (result x)) (score (result y))
      then y :: insert_by_score x l'
      else x :: y :: l'
  end.

Definition sorted_by_score (population : list PopulationMember)
  : list PopulationMember :=
  foldr insert_by_score [] population.

(** The head of a list is a member that no member outscores. *)
Definition headed_by_best (l : list PopulationMember) : Prop :=
  forall top, l !! 0 = Some top ->
    forall m, m ∈ l -> (score (result m) <= score (result top))%Q.

(** The truth value of the argument [index] in [if index:]: [None] and [0]
    are false. *)
Definition truthy (index : option nat) : bool :=
  match index with
  | Some (S _) => true
  | _ => false
  end.

(** ** The operators *)

Section Operators.

Context {E : Type}.
Variable ga : GeneticAlgorithm E.

(** Primitive actions. *)

Definition emit (ev : Event) : M E unit := fun s => mkRun (Return tt) s [ev].

Definition lift {A} (f : E -> A * E) : M E A := fun s =>
  let '(a, e') := f (env s) in
  mkRun (Return a) (mkState e' (_search_over s)) [].

Definition read_search_over : M E bool := fun s =>
  mkRun (Return (_search_over s)) s [].

Definition write_search_over (b : bool) : M E unit := fun s =>
  mkRun (Return tt) (mkState (env s) b) [].

(** [l[i]] for a Python list. *)
Definition getitem {A} (l : list A) (i : nat) : M E A :=
  match l !! i with
  | Some a => ret a
  | None => raise IndexError
  end.

(** [v[i] = x] for a numpy array. *)
Definition setitem {A} (v : list A) (i : nat) (x : A) : M E (list A) :=
  if bool_decide (i < length v) then ret (<[i := x]> v) else raise IndexError.

(** [self.get_transformations(current, original_text=original,
    indices_to_modify=[idx])]. *)
Definition call_get_transformations (current original : AttackedText) (idx : nat)
  : M E (list AttackedText) :=
  do texts <- lift (get_transformations ga current original [idx]);
  do _ <- emit (CallTransformations current idx);
  ret texts.

(** [new_results, self._search_over = self.get_goal_results(batch)]. *)
Definition call_get_goal_results (batch : list AttackedText)
  : M E (list GoalFunctionResult) :=
  do '(new_results, over) <- lift (get_goal_results ga batch);
  do _ <- emit (CallGoalResults batch new_results over);
  do _ <- write_search_over over;
  ret new_results.

(** [self._check_constraints(child, previous, original_text=original)]. *)
Definition call_check_constraints (child previous original : AttackedText)
  : M E bool :=
  do passed <- lift (_check_constraints ga child previous original);
  do _ <- emit (CallConstraints child previous passed);
  ret passed.

(** [self._crossover_operation(pop_member1, pop_member2)]. *)
Definition call_crossover_operation (pop_member1 pop_member2 : PopulationMember)
  : M E (AttackedText * list nat) :=
  do child <- lift (_crossover_operation ga pop_member1 pop_member2);
  do _ <- emit CallCrossoverOperation;
  ret child.

(** [w_select_probs = v / np.sum(v); np.random.choice(num_words, 1,
    p=w_select_probs)[0]].  When all weights are zero the division yields
    NaN and numpy raises [ValueError]. *)
Definition sample_position (v : list nat) : M E nat :=
  if np_sum v =? 0 then raise ValueError else lift (random_choice ga v).

(** *** [_perturb] (lines 53-109)

    [remaining] is [non_zero_indices - iterations]: every pass of the
    [while] loop either leaves the function or adds one to [iterations]. *)
Fixpoint perturb_loop (pop_member : PopulationMember)
    (original_result : GoalFunctionResult) (index : option nat)
    (remaining : nat) (num_replacements : list nat) : M E PopulationMember :=
  match remaining with
  | 0 => ret pop_member
  | S remaining' =>
      do idx <- (match index with
                 | Some (S i) => ret (S i)
                 | _ => sample_position num_replacements
                 end);
      do transformed_texts <-
        call_get_transformations (attacked_text pop_member)
          (result_text original_result) idx;
      if length transformed_texts =? 0 then
        perturb_loop pop_member original_result index remaining' num_replacements
      else
        do new_results <- call_get_goal_results transformed_texts;
        do over <- read_search_over;
        if over then ret pop_member
        else
          let diffs := diff_scores new_results (score (result pop_member)) in
          if improves diffs then
            let idx_with_max_score := argmax diffs in
            do new_text <- getitem transformed_texts idx_with_max_score;
            do new_result <- getitem new_results idx_with_max_score;
            ret (_modify_population_member ga pop_member new_text new_result idx)
          else
            do num_replacements' <- setitem num_replacements idx 0;
            perturb_loop pop_member original_result index remaining'
              num_replacements'
  end.

Definition _perturb (pop_member : PopulationMember)
    (original_result : GoalFunctionResult) (index : option nat)
  : M E PopulationMember :=
  let num_replacements := num_replacements_per_word pop_member in
  let non_zero_indices := count_nonzero num_replacements in
  if non_zero_indices =? 0 then ret pop_member
  else perturb_loop pop_member original_result index non_zero_indices
         num_replacements.

(** *** [_crossover] (lines 124-193) *)

(** Lines 146-158: the attributes written on the text returned by
    [_crossover_operation]. *)
Definition crossover_attrs (x1_text x2_text new_text : AttackedText) : AttackedText :=
  let replaced_indices := newly_modified_indices new_text in
  mkAttackedText
    (text new_text)
    ((modified_indices x1_text ∖ replaced_indices)
       ∪ (modified_indices x2_text ∩ replaced_indices))
    (newly_modified_indices new_text)
    (match last_transformation x1_text with
     | Some t => Some t
     | None =>
         match last_transformation x2_text with
         | Some t => Some t
         | None => last_transformation new_text
         end
     end).

(** Lines 160-163: the test that leaves the retry loop before validation. *)
Definition skips_validation (x1_text x2_text new_text : AttackedText) : bool :=
  negb (post_crossover_check ga)
  || (String.eqb (text new_text) (text x1_text)
      || String.eqb (text new_text) (text x2_text)).

(** The [while] loop of lines 141-180.  [retries_left] is
    [max_crossover_retries - num_tries]; the loop body runs at least once.
    The result is the last child, its budget vector and the final value of
    [passed_constraints]. *)
Fixpoint crossover_loop (pop_member1 pop_member2 : PopulationMember)
    (original_text : AttackedText) (retries_left : nat)
  : M E (AttackedText * list nat * bool) :=
  let x1_text := attacked_text pop_member1 in
  let x2_text := attacked_text pop_member2 in
  do '(raw_text, num_replacements) <- call_crossover_operation pop_member1 pop_member2;
  let new_text := crossover_attrs x1_text x2_text raw_text in
  if skips_validation x1_text x2_text new_text then
    ret (new_text, num_replacements, false)
  else
    do passed_constraints <-
      (match last_transformation new_text with
       | Some _ =>
           let previous_text :=
             match last_transformation x1_text with
             | Some _ => x1_text
             | None => x2_text
             end in
           call_check_constraints new_text previous_text original_text
       | None => ret true
       end);
    if passed_constraints then ret (new_text, num_replacements, true)
    else
      match retries_left with
      | 0 => ret (new_text, num_replacements, false)
      | S retries_left' =>
          crossover_loop pop_member1 pop_member2 original_text retries_left'
      end.

(** Line 182: the test that sends the slot to a parent instead of the
    child. *)
Definition falls_back (passed_constraints : bool) : bool :=
  post_crossover_check ga && negb passed_constraints.

(** The bound against which [np.random.uniform()] is compared on line 185. *)
Definition fallback_threshold : Q := 1 # 2.

Definition _crossover (pop_member1 pop_member2 : PopulationMember)
    (original_text : AttackedText) : M E PopulationMember :=
  do '(new_text, num_replacements, passed_constraints) <-
    crossover_loop pop_member1 pop_member2 original_text (max_crossover_retries ga);
  if falls_back passed_constraints then
    do u <- lift (random_uniform ga);
    ret (if Qltb u fallback_threshold then pop_member1 else pop_member2)
  else
    do new_results <- call_get_goal_results [new_text];
    do new_result <- getitem new_results 0;
    ret (mkPopulationMember new_text new_result num_replacements).

(** *** [_perform_search] (lines 207-255) *)

(** [population = self._initialize_population(initial_result,
    self.pop_size)]; the abstract method may leave [self._search_over] set
    (the concrete variants call [_perturb] in it). *)
Definition call_initialize_population (initial_result : GoalFunctionResult)
  : M E (list PopulationMember) :=
  do '(population, over) <-
    lift (_initialize_population ga initial_result (pop_size ga));
  do _ <- write_search_over over;
  ret population.

(** The inner [for idx in range(pop_size - 1)] loop of lines 236-251;
    [idxs] are the values of [idx] still to come. *)
Fixpoint construct_children (population : list PopulationMember)
    (parent1_idx parent2_idx : list nat) (initial_result : GoalFunctionResult)
    (idxs : list nat) (children : list PopulationMember)
  : M E (list PopulationMember) :=
  match idxs with
  | [] => ret children
  | idx :: idxs' =>
      do p1 <- getitem parent1_idx idx;
      do parent1 <- getitem population p1;
      do p2 <- getitem parent2_idx idx;
      do parent2 <- getitem population p2;
      do child <- _crossover parent1 parent2 (result_text initial_result);
      do over <- read_search_over;
      if over then ret children
      else
        do child' <- _perturb child initial_result None;
        let children' := children ++ [child'] in
        do over' <- read_search_over;
        if over' then ret children'
        else
          construct_children population parent1_idx parent2_idx initial_result
            idxs' children'
  end.

(** What one pass of the outer [for] loop does: leave the loop with the
    population as it stands ([break]), or hand the next generation and the
    best score so far to the next pass. *)
Inductive Step : Type :=
| Break (population : list PopulationMember)
| Continue (population : list PopulationMember) (current_score : Q).

(** The body of the outer loop, lines 214-253. *)
Definition generation (initial_result : GoalFunctionResult) (pop_size : nat)
    (population : list PopulationMember) (current_score : Q) : M E Step :=
  let population := sorted_by_score population in
  do over <- read_search_over;
  if over then ret (Break population)
  else
    do top <- getitem population 0;
    match goal_status (result top) with
    | SUCCEEDED => ret (Break population)
    | _ =>
        let improved := Qltb current_score (score (result top)) in
        if negb improved && give_up_if_no_improvement ga then ret (Break population)
        else
          let current_score :=
            if improved then score (result top) else current_score in
          let pop_scores := map (fun pm => score (result pm)) population in
          do parent1_idx <-
            lift (random_choice_parents ga (temp ga) pop_scores (pop_size - 1));
          do parent2_idx <-
            lift (random_choice_parents ga (temp ga) pop_scores (pop_size - 1));
          do children <-
            construct_children population parent1_idx parent2_idx initial_result
              (seq 0 (pop_size - 1)) [];
          ret (Continue ([top] ++ children) current_score)
    end.

(** The outer loop: [iters] passes are left. *)
Fixpoint generations (initial_result : GoalFunctionResult) (pop_size : nat)
    (iters : nat) (population : list PopulationMember) (current_score : Q)
  : M E (list PopulationMember) :=
  match iters with
  | 0 => ret population
  | S iters' =>
      do step <- generation initial_result pop_size population current_score;
      match step with
      | Break population' => ret population'
      | Continue population' current_score' =>
          generations initial_result pop_size iters' population' current_score'
      end
  end.

(** The value of the variable [population] when line 255 is reached. *)
Definition final_population (initial_result : GoalFunctionResult)
  : M E (list PopulationMember) :=
  do _ <- write_search_over false;
  do population <- call_initialize_population initial_result;
  let pop_size := length population in
  generations initial_result pop_size (max_iters ga) population
    (score initial_result).

Definition _perform_search (initial_result : GoalFunctionResult)
  : M E GoalFunctionResult :=
  do population <- final_population initial_result;
  do top <- getitem population 0;
  ret (result top).

End Operators.

(** ** The selection distribution (lines 228-230)

    [logits = ((-pop_scores) / temp).exp()] and
    [select_probs = logits / logits.sum()], over the reals.  The code
    computes them in binary32; the real numbers are what it approximates
    as long as [exp] neither overflows nor underflows. *)
Module Selection.

Definition logits (temp : R) (pop_scores : list R) : list R :=
  map (fun s => exp (- s / temp)%R) pop_scores.

Definition tensor_sum (v : list R) : R := foldr Rplus 0%R v.

Definition select_probs (temp : R) (pop_scores : list R) : list R :=
  let l := logits temp pop_scores in
  map (fun x => (x / tensor_sum l)%R) l.

(** The distribution from which the parents of a sorted population are
    drawn. *)
Definition parent_distribution (temp : Q) (population : list PopulationMember)
  : list R :=
  select_probs (Q2R temp) (map (fun pm => Q2R (score (result pm))) population).

End Selection.

(** ** Runs of the mutation loop, case by case

    [perturb_run ga pm orig index n v s r]: the loop of [_perturb] on the
    member [pm], with [n] passes left and the working copy [v] of the budget
    vector, started in state [s], makes the run [r].  One constructor per way
    through the loop body. *)
Section Runs.

Context {E : Type}.
Variable ga : GeneticAlgorithm E.

(** A run with the calls [evs] made before it. *)
Definition prepend {A} (evs : list Event) (r : Run E A) : Run E A :=
  mkRun (outcome r) (final r) (evs ++ events r).

(** Lines 71-77: the position [idx] chosen in state [s], and the state
    [s1] after the choice. *)
Definition position_chosen (index : option nat) (v : list nat) (s : State E)
    (idx : nat) (s1 : State E) : Prop :=
  match index with
  | Some (S i) => idx = S i /\ s1 = s
  | _ =>
      np_sum v <> 0
      /\ idx = (random_choice ga v (env s)).1
      /\ s1 = mkState (random_choice ga v (env s)).2 (_search_over s)
  end.

(** Lines 79-83, in state [s1]. *)
Definition candidates (pm : PopulationMember) (orig : GoalFunctionResult)
    (idx : nat) (s1 : State E) : list AttackedText :=
  (get_transformations ga (attacked_text pm) (result_text orig) [idx] (env s1)).1.

Definition after_candidates (pm : PopulationMember) (orig : GoalFunctionResult)
    (idx : nat) (s1 : State E) : State E :=
  mkState
    (get_transformations ga (attacked_text pm) (result_text orig) [idx] (env s1)).2
    (_search_over s1).

(** Line 89, in state [s2]. *)
Definition scored (batch : list AttackedText) (s2 : State E)
  : list GoalFunctionResult :=
  (get_goal_results ga batch (env s2)).1.1.

Definition reported_over (batch : list AttackedText) (s2 : State E) : bool :=
  (get_goal_results ga batch (env s2)).1.2.

Definition after_scoring (batch : list AttackedText) (s2 : State E) : State E :=
  mkState (get_goal_results ga batch (env s2)).2 (reported_over batch s2).

(** The two calls of a pass that reaches the goal function. *)
Definition pass_calls (pm : PopulationMember) (idx : nat)
    (batch : list AttackedText) (s2 : State E) (over : bool) : list Event :=
  [CallTransformations (attacked_text pm) idx;
   CallGoalResults batch (scored batch s2) over].

Inductive perturb_run (pm : PopulationMember) (orig : GoalFunctionResult)
    (index : option nat)
  : nat -> list nat -> State E -> Run E PopulationMember -> Prop :=
| perturb_exhausted v s :
    perturb_run pm orig index 0 v s (mkRun (Return pm) s [])
| perturb_nan n v s :
    truthy index = false ->
    np_sum v = 0 ->
    perturb_run pm orig index (S n) v s (mkRun (Raise ValueError) s [])
| perturb_no_candidates n v s idx s1 r :
    position_chosen index v s idx s1 ->
    candidates pm orig idx s1 = [] ->
    perturb_run pm orig index n v (after_candidates pm orig idx s1) r ->
    perturb_run pm orig index (S n) v s
      (prepend [CallTransformations (attacked_text pm) idx] r)
| perturb_search_over n v s idx s1 :
    position_chosen index v s idx s1 ->
    let batch := candidates pm orig idx s1 in
    let s2 := after_candidates pm orig idx s1 in
    batch <> [] ->
    reported_over batch s2 = true ->
    perturb_run pm orig index (S n) v s
      (mkRun (Return pm) (after_scoring batch s2) (pass_calls pm idx batch s2 true))
| perturb_commit n v s idx s1 new_text new_result :
    position_chosen index v s idx s1 ->
    let batch := candidates pm orig idx s1 in
    let s2 := after_candidates pm orig idx s1 in
    let diffs := diff_scores (scored batch s2) (score (result pm)) in
    batch <> [] ->
    reported_over batch s2 = false ->
    improves diffs = true ->
    batch !! argmax diffs = Some new_text ->
    scored batch s2 !! argmax diffs = Some new_result ->
    perturb_run pm orig index (S n) v s
      (mkRun (Return (_modify_population_member ga pm new_text new_result idx))
         (after_scoring batch s2) (pass_calls pm idx batch s2 false))
| perturb_commit_error n v s idx s1 :
    position_chosen index v s idx s1 ->
    let batch := candidates pm orig idx s1 in
    let s2 := after_candidates pm orig idx s1 in
    let diffs := diff_scores (scored batch s2) (score (result pm)) in
    batch <> [] ->
    reported_over batch s2 = false ->
    improves diffs = true ->
    batch !! argmax diffs = None ->
    perturb_run pm orig index (S n) v s
      (mkRun (Raise IndexError) (after_scoring batch s2) (pass_calls pm idx batch s2 false))
| perturb_zero n v s idx s1 r :
    position_chosen index v s idx s1 ->
    let batch := candidates pm orig idx s1 in
    let s2 := after_candidates pm orig idx s1 in
    let diffs := diff_scores (scored batch s2) (score (result pm)) in
    batch <> [] ->
    reported_over batch s2 = false ->
    improves diffs = false ->
    idx < length v ->
    perturb_run pm orig index n (<[idx := 0]> v) (after_scoring batch s2) r ->
    perturb_run pm orig index (S n) v s (prepend (pass_calls pm idx batch s2 false) r)
| perturb_zero_error n v s idx s1 :
    position_chosen index v s idx s1 ->
    let batch := candidates pm orig idx s1 in
    let s2 := after_candidates pm orig idx s1 in
    let diffs := diff_scores (scored batch s2) (score (result pm)) in
    batch <> [] ->
    reported_over batch s2 = false ->
    improves diffs = false ->
    length v <= idx ->
    perturb_run pm orig index (S n) v s
      (mkRun (Raise IndexError) (after_scoring batch s2) (pass_calls pm idx batch s2 false)).

(** The run commits the best candidate of its last batch, as binary32
    tells them apart: it returns the member built by
    [_modify_population_member] from the candidate at the [argmax] position.
    The score of that candidate beats the member's score, and its binary32
    difference to the member's score is the greatest of the batch, at the
    first position that has it; the two calls of that pass end the log. *)
Definition commits_best (pm : PopulationMember) (r : Run E PopulationMember)
  : Prop :=
  exists idx batch new_results new_text new_result pre i,
    outcome r = Return (_modify_population_member ga pm new_text new_result idx)
    /\ events r
       = pre ++ [CallTransformations (attacked_text pm) idx;
                 CallGoalResults batch new_results false]
    /\ batch !! i = Some new_text
    /\ new_results !! i = Some new_result
    /\ (score (result pm) < score new_result)%Q
    /\ first_maximal (diff_scores new_results (score (result pm))) i.

(** *** What the engine expects of its collaborators *)

(** [_modify_population_member] returns a member that carries the result it
    was given (its docstring: "a new copy with [new_text], [new_result]"). *)
Definition keeps_new_result : Prop :=
  forall m t r i, result (_modify_population_member ga m t r i) = r.

(** [np.random.choice] draws positions of non-zero probability only. *)
Definition draws_from_support : Prop :=
  forall w e, np_sum w <> 0 ->
    exists k, w !! (random_choice ga w e).1 = Some (S k).

(** The goal function returns at most one result per text of the batch. *)
Definition one_result_per_text : Prop :=
  forall batch e, length (get_goal_results ga batch e).1.1 <= length batch.

(** A fixed [index] that [_perturb] honours is a word position of the
    member. *)
Definition index_in_range (index : option nat) (pm : PopulationMember) : Prop :=
  forall i, index = Some (S i) -> S i < length (num_replacements_per_word pm).

End Runs.

(** ** Runs of the crossover retry loop, case by case *)
Section CrossoverRuns.

Context {E : Type}.
Variable ga : GeneticAlgorithm E.
Variables (pm1 pm2 : PopulationMember) (original_text : AttackedText).

(** The child of an attempt made in state [s] (lines 142-158), its budget
    vector, and the state after the attempt. *)
Definition recombined (s : State E) : AttackedText :=
  crossover_attrs (attacked_text pm1) (attacked_text pm2)
    (_crossover_operation ga pm1 pm2 (env s)).1.1.

Definition recombined_budget (s : State E) : list nat :=
  (_crossover_operation ga pm1 pm2 (env s)).1.2.

Definition after_recombination (s : State E) : State E :=
  mkState (_crossover_operation ga pm1 pm2 (env s)).2 (_search_over s).

(** Lines 166-170: the parent against which the child is validated. *)
Definition previous_text : AttackedText :=
  match last_transformation (attacked_text pm1) with
  | Some _ => attacked_text pm1
  | None => attacked_text pm2
  end.

(** Lines 171-173, for the child of the attempt made in state [s]. *)
Definition verdict (s : State E) : bool :=
  (_check_constraints ga (recombined s) previous_text original_text
     (env (after_recombination s))).1.

Definition after_validation (s : State E) : State E :=
  mkState
    (_check_constraints ga (recombined s) previous_text original_text
       (env (after_recombination s))).2
    (_search_over s).

(** The calls of an attempt that reaches validation. *)
Definition attempt_calls (s : State E) (passed : bool) : list Event :=
  [CallCrossoverOperation; CallConstraints (recombined s) previous_text passed].

Inductive crossover_run
  : nat -> State E -> Run E (AttackedText * list nat * bool) -> Prop :=
| crossover_skipped k s :
    skips_validation ga (attacked_text pm1) (attacked_text pm2) (recombined s) = true ->
    crossover_run k s
      (mkRun (Return (recombined s, recombined_budget s, false))
         (after_recombination s) [CallCrossoverOperation])
| crossover_untagged k s :
    skips_validation ga (attacked_text pm1) (attacked_text pm2) (recombined s) = false ->
    last_transformation (recombined s) = None ->
    crossover_run k s
      (mkRun (Return (recombined s, recombined_budget s, true))
         (after_recombination s) [CallCrossoverOperation])
| crossover_validated k s :
    skips_validation ga (attacked_text pm1) (attacked_text pm2) (recombined s) = false ->
    last_transformation (recombined s) <> None ->
    verdict s = true ->
    crossover_run k s
      (mkRun (Return (recombined s, recombined_budget s, true))
         (after_validation s) (attempt_calls s true))
| crossover_rejected_last s :
    skips_validation ga (attacked_text pm1) (attacked_text pm2) (recombined s) = false ->
    last_transformation (recombined s) <> None ->
    verdict s = false ->
    crossover_run 0 s
      (mkRun (Return (recombined s, recombined_budget s, false))
         (after_validation s) (attempt_calls s false))
| crossover_rejected_retry k s r :
    skips_validation ga (attacked_text pm1) (attacked_text pm2) (recombined s) = false ->
    last_transformation (recombined s) <> None ->
    verdict s = false ->
    crossover_run k (after_validation s) r ->
    crossover_run (S k) s (prepend (attempt_calls s false) r).

(** The state in which attempt number [n] (counted from 0) is made, when
    every attempt from state [s] on before it went through validation. *)
Fixpoint attempt_state (n : nat) (s : State E) : State E :=
  match n with
  | 0 => s
  | S n' => attempt_state n' (after_validation s)
  end.

(** The first [n] attempts from state [s] on reached validation and failed
    it: these are the runs of the loop that come to attempt number [n]. *)
Fixpoint rejected_attempts (n : nat) (s : State E) : Prop :=
  match n with
  | 0 => True
  | S n' =>
      skips_validation ga (attacked_text pm1) (attacked_text pm2) (recombined s)
      = false
      /\ last_transformation (recombined s) <> None
      /\ verdict s = false
      /\ rejected_attempts n' (after_validation s)
  end.

(** The calls of these attempts. *)
Fixpoint rejected_calls (n : nat) (s : State E) : list Event :=
  match n with
  | 0 => []
  | S n' => attempt_calls s false ++ rejected_calls n' (after_validation s)
  end.

(** Line 185: the parent that [np.random.uniform()], drawn in state [s],
    selects. *)
Definition coin_parent (s : State E) : PopulationMember :=
  if Qltb (random_uniform ga (env s)).1 fallback_threshold then pm1 else pm2.

End CrossoverRuns.

(** ** Properties of logs *)

(** A call of the goal function that reports [search_over] is the last call
    of the log. *)
Fixpoint search_over_is_last (evs : list Event) : Prop :=
  match evs with
  | [] => True
  | ev :: rest =>
      (reports_search_over ev = true -> rest = []) /\ search_over_is_last rest
  end.

(** No call of the log reports [search_over]. *)
Definition quiet (evs : list Event) : Prop :=
  Forall (fun ev => reports_search_over ev = false) evs.

(** The log [evs] of a run that was started with the flag down and ends
    with the flag at [over]. *)
Definition flag_follows_log (evs : list Event) (over : bool) : Prop :=
  if over then
    exists pre ev, evs = pre ++ [ev] /\ quiet pre /\ reports_search_over ev = true
  else quiet evs.

(** The invariant of the engine: a run started with the flag up makes no
    call and leaves the flag up; the log of a run started with the flag down
    follows the flag. *)
Definition log_ok {E A} (s : State E) (r : Run E A) : Prop :=
  if _search_over s then events r = [] /\ _search_over (final r) = true
  else flag_follows_log (events r) (_search_over (final r)).

(** ** A small concrete instance

    Collaborators simple enough to run the engine by evaluation.  The state
    of the collaborators is the number of texts the goal function has
    scored so far. *)
Module Toy.

Definition plain (s : string) : AttackedText := mkAttackedText s ∅ ∅ None.

(** The goal function scores a text by its length. *)
Definition goal_result (t : AttackedText) : GoalFunctionResult :=
  mkGoalFunctionResult t (Z.of_nat (String.length (text t)) # 1) IN_PROGRESS.

(** A goal function with a query budget: it scores the texts the budget
    still allows and reports [search_over] once the budget is used up. *)
Definition goal_results (budget : nat) (batch : list AttackedText) (queries : nat)
  : (list GoalFunctionResult * bool) * nat :=
  let batch' := take (budget - queries) batch in
  let queries' := queries + length batch' in
  ((map goal_result batch', queries' =? budget), queries').

(** A goal function that gives every text the score 0. *)
Definition flat_results (batch : list AttackedText) (queries : nat)
  : (list GoalFunctionResult * bool) * nat :=
  ((map (fun t => mkGoalFunctionResult t 0 IN_PROGRESS) batch, false),
   queries + length batch).

(** One candidate per position: the text with a mark appended. *)
Definition transformations (current original : AttackedText) (indices : list nat)
    (queries : nat) : list AttackedText * nat :=
  ([mkAttackedText (text current ++ "!")
      (modified_indices current ∪ list_to_set indices)
      (list_to_set indices) (Some "mark")], queries).

(** The draw of a position: the last position of non-zero weight. *)
Fixpoint last_nonzero (w : list nat) : nat :=
  match w with
  | [] => 0
  | x :: w' => if np_sum w' =? 0 then 0 else S (last_nonzero w')
  end.

Definition choice (w : list nat) (queries : nat) : nat * nat :=
  (last_nonzero w, queries).

(** The abstract methods: the committed position is closed for further
    replacement; recombination takes the text of the second parent and the
    budget of the first. *)
Definition modify (pop_member : PopulationMember) (new_text : AttackedText)
    (new_result : GoalFunctionResult) (word_idx : nat) : PopulationMember :=
  mkPopulationMember new_text new_result
    (<[word_idx := 0]> (num_replacements_per_word pop_member)).

Definition recombine (pop_member1 pop_member2 : PopulationMember) (queries : nat)
  : (AttackedText * list nat) * nat :=
  ((plain (text (attacked_text pop_member2)),
    num_replacements_per_word pop_member1), queries).

(** Recombination that builds a text of its own, tagged with the
    transformation of the first parent. *)
Definition recombine_fresh (pop_member1 pop_member2 : PopulationMember)
    (queries : nat) : (AttackedText * list nat) * nat :=
  ((mkAttackedText
      (text (attacked_text pop_member1) ++ text (attacked_text pop_member2))
      ∅ ∅ None,
    num_replacements_per_word pop_member1), queries).

Definition initialize (initial_result : GoalFunctionResult) (size : nat)
    (queries : nat) : (list PopulationMember * bool) * nat :=
  ((replicate size
      (mkPopulationMember (result_text initial_result) initial_result [1; 1]),
    false), queries).

(** The engine with these collaborators.  [check] is the value of
    [post_crossover_check], [iters] of [max_iters]; the constraints reject
    every child; the coin of the fallback shows [1/4]. *)
Definition engine (check : bool) (iters : nat)
    (oracle : list AttackedText -> nat -> (list GoalFunctionResult * bool) * nat)
    (crossover_operation :
       PopulationMember -> PopulationMember -> nat -> (AttackedText * list nat) * nat)
  : GeneticAlgorithm nat :=
  {| pop_size := 2;
     max_iters := iters;
     temp := 3 # 10;
     give_up_if_no_improvement := false;
     post_crossover_check := check;
     max_crossover_retries := 2;
     _modify_population_member := modify;
     _crossover_operation := crossover_operation;
     _initialize_population := initialize;
     get_transformations := transformations;
     get_goal_results := oracle;
     _check_constraints := fun _ _ _ queries => (false, queries);
     random_choice := choice;
     random_choice_parents := fun _ _ size queries => (replicate size 0, queries);
     random_uniform := fun queries => ((1 # 4)%Q, queries) |}.

Definition start : State nat := mkState 0 false.

Definition original : AttackedText := plain "ab".

Definition member (s : string) (budget : list nat) : PopulationMember :=
  mkPopulationMember (plain s) (goal_result (plain s)) budget.

Definition tagged_member (s : string) (budget : list nat) : PopulationMember :=
  mkPopulationMember (mkAttackedText s ∅ ∅ (Some "mark"))
    (goal_result (plain s)) budget.

(** Two candidates per position: the text with ["!"] and the text with
    ["?"] appended. *)
Definition two_transformations (current original : AttackedText)
    (indices : list nat) (queries : nat) : list AttackedText * nat :=
  ([mkAttackedText (text current ++ "!")
      (modified_indices current ∪ list_to_set indices)
      (list_to_set indices) (Some "mark");
    mkAttackedText (text current ++ "?")
      (modified_indices current ∪ list_to_set indices)
      (list_to_set indices) (Some "mark")], queries).

(** A goal function whose scores lie closer together than binary32 can
    tell: 3/4 + 2^-30 for the text ["ab?"], 3/4 for every other text. *)
Definition close_results (batch : list AttackedText) (queries : nat)
  : (list GoalFunctionResult * bool) * nat :=
  ((map (fun t =>
           mkGoalFunctionResult t
             (if String.eqb (text t) "ab?"
              then (3 # 4) + (1 # 1073741824) else 3 # 4)%Q
             IN_PROGRESS) batch, false),
   queries + length batch).

(** The engine with two candidates per position and the close scores. *)
Definition close_engine : GeneticAlgorithm nat :=
  {| pop_size := 2;
     max_iters := 1;
     temp := 3 # 10;
     give_up_if_no_improvement := false;
     post_crossover_check := false;
     max_crossover_retries := 2;
     _modify_population_member := modify;
     _crossover_operation := recombine;
     _initialize_population := initialize;
     get_transformations := two_transformations;
     get_goal_results := close_results;
     _check_constraints := fun _ _ _ queries => (false, queries);
     random_choice := choice;
     random_choice_parents := fun _ _ size queries => (replicate size 0, queries);
     random_uniform := fun queries => ((1 # 4)%Q, queries) |}.

(** A member with a score of its own. *)
Definition scored_member (s : string) (q : Q) (budget : list nat)
  : PopulationMember :=
  mkPopulationMember (plain s) (mkGoalFunctionResult (plain s) q IN_PROGRESS)
    budget.

(** Recombination that counts its calls in the state of the collaborators:
    the first call builds a text of its own, every later call takes the
    text of the second parent. *)
Definition recombine_fresh_once (pop_member1 pop_member2 : PopulationMember)
    (calls : nat) : (AttackedText * list nat) * nat :=
  ((if calls =? 0
    then mkAttackedText
           (text (attacked_text pop_member1) ++ text (attacked_text pop_member2))
           ∅ ∅ None
    else plain (text (attacked_text pop_member2)),
    num_replacements_per_word pop_member1), S calls).

End Toy.


(** The engine [ga] with a population initialiser that returns no member
    and leaves the flag down. *)
Definition without_population {E} (ga : GeneticAlgorithm E) : GeneticAlgorithm E :=
  {| pop_size := pop_size ga;
     max_iters := max_iters ga;
     temp := temp ga;
     give_up_if_no_improvement := give_up_if_no_improvement ga;
     post_crossover_check := post_crossover_check ga;
     max_crossover_retries := max_crossover_retries ga;
     _modify_population_member := _modify_population_member ga;
     _crossover_operation := _crossover_operation ga;
     _initialize_population := fun _ _ e => (([], false), e);
     get_transformations := get_transformations ga;
     get_goal_results := get_goal_results ga;
     _check_constraints := _check_constraints ga;
     random_choice := random_choice ga;
     random_choice_parents := random_choice_parents ga;
     random_uniform := random_uniform ga |}.

(** Descending order of scores, as line 214 leaves the population. *)
Definition by_descending_score (a b : PopulationMember) : Prop :=
  (score (result b) <= score (result a))%Q.

(** ** The constraint [InstructionModification]
      ([textattack/constraints/pre_transformation/instruction_modification.py])

    Which word positions of an instruction-style prompt may be modified.
    A Python string is a [string]; its characters are the [ascii] values,
    and a character position is a position in that sequence. *)
Module InstructionModification.
Import Stdlib.Strings.Ascii.

(** The exceptions that the bare [except:] clauses catch. *)
Inductive Exception : Type :=
| UnboundLocalError
| IndexError.

Inductive Try (A : Type) : Type :=
| Ok (a : A)
| Raised (e : Exception).
Arguments Ok {A} a.
Arguments Raised {A} e.

(** [s.find(sub)]: the position of the first occurrence of [sub] in [s];
    [None] stands for -1. *)
Fixpoint find (sub s : string) : option nat :=
  if String.prefix sub s then Some 0
  else
    match s with
    | EmptyString => None
    | String _ s' => option_map S (find sub s')
    end.

(** [s.split(sep)] for a non-empty separator: the pieces between the
    occurrences of [sep], found from left to right without overlap.  [skip]
    counts the characters of a separator still to pass over, [current] is
    the piece being read. *)
Fixpoint split_from (sep : string) (skip : nat) (s current : string) : list string :=
  match s with
  | EmptyString => [current]
  | String c s' =>
      match skip with
      | S skip' => split_from sep skip' s' current
      | 0 =>
          if String.prefix sep s
          then current :: split_from sep (String.length sep - 1) s' EmptyString
          else split_from sep 0 s' (current +:+ String c EmptyString)
      end
  end.

Definition split (sep s : string) : list string :=
  split_from sep 0 s EmptyString.

(** [''.join(parts)]. *)
Definition join (parts : list string) : string :=
  String.concat EmptyString parts.

(** [list(range(a, b))]. *)
Definition range (a b : nat) : list nat := seq a (b - a).

(** [l[1:-1]]. *)
Definition inner {A} (l : list A) : list A := drop 1 (take (length l - 1) l).

(** The [for index, c in enumerate(main_string)] loop of lines 21-28, from
    position [index] on; [rest] holds the characters from that position,
    [start_index] is [None] while the variable is unbound.  The variable
    [end_index] is bound only by the pass that leaves the loop, so falling
    out of the loop ends in [UnboundLocalError] on line 29. *)
Fixpoint word_index_loop (start_char_index end_char_index : Z) (rest : string)
    (index word_index : nat) (start_index : option nat) : Try (nat * nat) :=
  match rest with
  | EmptyString => Raised UnboundLocalError
  | String c rest' =>
      let word_index := if Ascii.eqb c " " then S word_index else word_index in
      let start_index :=
        if (Z.of_nat index =? start_char_index)%Z then Some word_index
        else start_index in
      if (Z.of_nat index =? end_char_index)%Z then
        match start_index with
        | Some start => Ok (start, word_index)
        | None => Raised UnboundLocalError
        end
      else
        word_index_loop start_char_index end_char_index rest' (S index)
          word_index start_index
  end.

(** [_get_word_index_range] (lines 17-29). *)
Definition _get_word_index_range (main_string to_search_string : string)
  : Try (nat * nat) :=
  let start_char_index :=
    match find to_search_string main_string with
    | Some p => Z.of_nat p
    | None => (-1)%Z
    end in
  let end_char_index :=
    (start_char_index + Z.of_nat (String.length to_search_string))%Z in
  word_index_loop start_char_index end_char_index main_string 0 0 None.

(** The object: the three switches of [__init__]. *)
Record Constraint : Type := mkConstraint {
  modify_definition : bool;
  modify_task_input : bool;
  modify_explanation : bool
}.

(** The word positions of the segment [segment] of [text], as lines 46-48
    (and 54-56, 66-68) compute them. *)
Definition segment_indices (text segment : string) : Try (list nat) :=
  match _get_word_index_range text segment with
  | Ok (start, stop) => Ok (range start stop)
  | Raised e => Raised e
  end.

(** Lines 45-48. *)
Definition definition_indices (text : string) : Try (list nat) :=
  match split "Definition:" text !! 1 with
  | None => Raised IndexError
  | Some after =>
      match split "Negative Examples:" after !! 0 with
      | None => Raised IndexError
      | Some definiton_str => segment_indices text definiton_str
      end
  end.

(** Lines 53-56. *)
Definition task_input_indices (text : string) : Try (list nat) :=
  match last (split "Input:" text) with
  | None => Raised IndexError
  | Some after =>
      match split "Output:" after !! 0 with
      | None => Raised IndexError
      | Some task_input_str => segment_indices text task_input_str
      end
  end.

(** Lines 61-64: the list of explanations. *)
Definition explanation_list (text : string) : Try (list string) :=
  let text_input_parts := join (split "Positive Examples:" text) in
  let explanations := split "Explanation:" text_input_parts in
  match last explanations with
  | None => Raised IndexError
  | Some last_part =>
      match split "Input:" last_part !! 0 with
      | None => Raised IndexError
      | Some last_explanation => Ok (inner explanations ++ [last_explanation])
      end
  end.

(** Lines 65-68: the loop updates the set as it goes; an exception leaves
    the loop with the updates made so far. *)
Fixpoint explanation_loop (text : string) (explanations : list string)
    (modifiable_indices : gset nat) : gset nat * bool :=
  match explanations with
  | [] => (modifiable_indices, true)
  | exp :: explanations' =>
      match segment_indices text exp with
      | Ok word_index_range =>
          explanation_loop text explanations'
            (modifiable_indices ∪ list_to_set word_index_range)
      | Raised _ => (modifiable_indices, false)
      end
  end.

(** [_get_modifiable_indices] (lines 36-71), applied to [current_text.text].
    The result is the set returned and the messages printed, in order. *)
Definition _get_modifiable_indices (self : Constraint) (text : string)
  : gset nat * list string :=
  let modifiable_indices : gset nat := ∅ in
  let printed : list string := [] in
  let '(modifiable_indices, printed) :=
    if modify_definition self then
      match definition_indices text with
      | Ok word_index_range =>
          (modifiable_indices ∪ list_to_set word_index_range, printed)
      | Raised _ =>
          (modifiable_indices,
           printed ++ ["No definition found in the text or error occured"])
      end
    else (modifiable_indices, printed) in
  let '(modifiable_indices, printed) :=
    if modify_task_input self then
      match task_input_indices text with
      | Ok word_index_range =>
          (modifiable_indices ∪ list_to_set word_index_range, printed)
      | Raised _ =>
          (modifiable_indices,
           printed ++ ["No task input found in the text or error occured"])
      end
    else (modifiable_indices, printed) in
  if modify_explanation self then
    match explanation_list text with
    | Ok explanations =>
        let '(modifiable_indices, completed) :=
          explanation_loop text explanations modifiable_indices in
        (modifiable_indices,
         if completed then printed
         else printed ++ ["No explanations found in the text or error occured"])
    | Raised _ =>
        (modifiable_indices,
         printed ++ ["No explanations found in the text or error occured"])
    end
  else (modifiable_indices, printed).

(** The number of spaces among the first [k] characters of [s]: the value
    of [word_index] after the pass for position [k - 1]. *)
Fixpoint spaces_upto (k : nat) (s : string) : nat :=
  match k, s with
  | S k', String c s' =>
      (if Ascii.eqb c " " then 1 else 0) + spaces_upto k' s'
  | _, _ => 0
  end.

(** Every position of [X] is smaller than the number of spaces of [text],
    so it names a word that a space precedes. *)
Definition within_words (text : string) (X : gset nat) : Prop :=
  ∀ i, i ∈ X → i < spaces_upto (String.length text) text.

(** A prompt with one definition, one explained example and a task input. *)
Definition sample_prompt : string :=
  "Definition: say hi Negative Examples: none Positive Examples: Input: a b Output: c Explanation: because so Input: x y z Output: ".

End InstructionModification.

(** ** Facts about the helpers *)

Lemma Qltb_lt (x y : Q) : Qltb x y = true <-> (x < y)%Q.
Proof.
  unfold Qltb. rewrite negb_true_iff. split.
  - intros H. apply Qnot_le_lt. intros Hle.
    apply Qle_bool_iff in Hle. congruence.
  - intros H. destruct (Qle_bool y x) eqn:Hb; [|reflexivity].
    apply Qle_bool_iff in Hb. exfalso. exact (Qlt_not_le _ _ H Hb).
Qed.

Lemma Qltb_ge (x y : Q) : Qltb x y = false <-> (y <= x)%Q.
Proof.
  unfold Qltb. rewrite negb_false_iff. apply Qle_bool_iff.
Qed.

Lemma lookup_map {A B} (f : A -> B) (l : list A) (i : nat) :
  map f l !! i = f <$> (l !! i).
Proof.
  revert i. induction l as [|x l IH]; intros [|i]; simpl; try reflexivity.
  apply IH.
Qed.

(** ** Rounding to binary32 *)

Lemma round_half_even_cases (x : Q) :
  round_half_even x = Qfloor x \/ round_half_even x = (Qfloor x + 1)%Z.
Proof.
  unfold round_half_even.
  destruct (x - inject_Z (Qfloor x) ?= 1 # 2)%Q; [destruct (Z.even _)|..]; auto.
Qed.

Lemma round_half_even_mono (x y : Q) :
  (x <= y)%Q -> (round_half_even x <= round_half_even y)%Z.
Proof.
  intros Hxy. pose proof (Qfloor_resp_le x y Hxy) as Hf.
  destruct (Z.eq_dec (Qfloor x) (Qfloor y)) as [Heq|Hne].
  - unfold round_half_even. rewrite Heq.
    destruct (Qcompare_spec (x - inject_Z (Qfloor y)) (1 # 2)) as [Hx|Hx|Hx];
      destruct (Qcompare_spec (y - inject_Z (Qfloor y)) (1 # 2)) as [Hy|Hy|Hy];
      try (destruct (Z.even (Qfloor y))); try lia; exfalso; lra.
  - destruct (round_half_even_cases x) as [-> | ->];
      destruct (round_half_even_cases y) as [-> | ->]; lia.
Qed.

Lemma round_half_even_inject (n : Z) : round_half_even (inject_Z n) = n.
Proof.
  unfold round_half_even. rewrite Qfloor_Z.
  destruct (Qcompare_spec (inject_Z n - inject_Z n) (1 # 2)) as [H|H|H];
    [exfalso; lra|reflexivity|exfalso; lra].
Qed.

Lemma pow2_pos (k : Z) : (0 < 2 ^ k)%Q.
Proof. apply Qpower_0_lt. reflexivity. Qed.

Lemma pow2_le (n m : Z) : (n <= m)%Z -> (2 ^ n <= 2 ^ m)%Q.
Proof. intros H. apply Qpower_le_compat_l; [exact H|]. by apply Qle_bool_iff. Qed.

Lemma pow2_plus (n m : Z) : (2 ^ (n + m) == 2 ^ n * 2 ^ m)%Q.
Proof. apply Qpower_plus. intros H. discriminate. Qed.

Lemma pow2_inject (k : Z) : (0 <= k)%Z -> (2 ^ k == inject_Z (2 ^ k))%Q.
Proof. intros Hk. symmetry. exact (Zpower_Qpower 2 k Hk). Qed.

Lemma ilog2_spec (a : Q) :
  (0 < a)%Q -> (2 ^ ilog2 a <= a)%Q /\ (a < 2 ^ (ilog2 a + 1))%Q.
Proof.
  intros Ha. destruct a as [n d]. unfold ilog2. cbn [Qnum Qden].
  assert (Hn : (0 < n)%Z).
  { unfold Qlt in Ha. simpl in Ha. lia. }
  set (ln := Z.log2 n). set (ld := Z.log2 (Z.pos d)).
  assert (Hln : (0 <= ln)%Z) by apply Z.log2_nonneg.
  assert (Hld : (0 <= ld)%Z) by apply Z.log2_nonneg.
  destruct (Z.log2_spec n Hn) as [Hn1 Hn2]. fold ln in Hn1, Hn2.
  destruct (Z.log2_spec (Z.pos d) (Pos2Z.is_pos d)) as [Hd1 Hd2].
  fold ld in Hd1, Hd2.
  (* the bounds, cross-multiplied *)
  assert (Hup : forall e : Z, (ln + 1 - ld <= e)%Z -> (n # d < 2 ^ e)%Q).
  { intros e He.
    apply Qlt_le_trans with (2 ^ (ln + 1 - ld))%Q; [|by apply pow2_le].
    replace (ln + 1 - ld)%Z with ((ln + 1) + - ld)%Z by lia.
    rewrite pow2_plus, Qpower_opp.
    rewrite (pow2_inject (ln + 1)), (pow2_inject ld) by lia.
    apply Qlt_shift_div_l.
    - rewrite <- (Zlt_Qlt 0). lia.
    - unfold Qlt, Qmult. simpl. rewrite !Z.mul_1_r.
      apply Z.lt_le_trans with (2 ^ (ln + 1) * Z.pos d)%Z; [nia|nia]. }
  assert (Hlow : forall e : Z, (e <= ln - ld - 1)%Z -> (2 ^ e <= n # d)%Q).
  { intros e He.
    apply Qle_trans with (2 ^ (ln - ld - 1))%Q; [by apply pow2_le|].
    replace (ln - ld - 1)%Z with (ln + - (ld + 1))%Z by lia.
    rewrite pow2_plus, Qpower_opp.
    rewrite (pow2_inject ln), (pow2_inject (ld + 1)) by lia.
    apply Qle_shift_div_r.
    - rewrite <- (Zlt_Qlt 0). lia.
    - unfold Qle, Qmult. simpl. rewrite !Z.mul_1_r.
      apply Z.le_trans with (n * Z.pos d)%Z; [nia|nia]. }
  destruct (Qle_bool (2 ^ (ln - ld)) (n # d)) eqn:Hb.
  - apply Qle_bool_iff in Hb. split; [exact Hb|]. apply Hup. lia.
  - split; [apply Hlow; lia|].
    replace (ln - ld - 1 + 1)%Z with (ln - ld)%Z by lia.
    apply Qnot_le_lt. intros H. apply Qle_bool_iff in H. congruence.
Qed.

Lemma quantum_spec (a : Q) :
  (-149 <= quantum a <= 104)%Z
  /\ ((quantum a < 104)%Z -> (a < 2 ^ (quantum a + 24))%Q)
  /\ ((-149 < quantum a)%Z -> (2 ^ (quantum a + 23) <= a)%Q).
Proof.
  unfold quantum. destruct (Qle_bool a 0) eqn:Hz.
  - apply Qle_bool_iff in Hz. split; [lia|]. split; [|lia].
    intros _. pose proof (pow2_pos (-149 + 24)). lra.
  - assert (Ha : (0 < a)%Q).
    { apply Qnot_le_lt. intros H. apply Qle_bool_iff in H. congruence. }
    destruct (ilog2_spec a Ha) as [Hlow Hup].
    split; [lia|]. split.
    + intros Hq. eapply Qlt_le_trans; [exact Hup|]. apply pow2_le. lia.
    + intros Hq. eapply Qle_trans; [|exact Hlow]. apply pow2_le. lia.
Qed.

Lemma quantum_mono (a b : Q) : (a <= b)%Q -> (quantum a <= quantum b)%Z.
Proof.
  intros Hab.
  destruct (quantum_spec a) as (Ha & _ & Hlow).
  destruct (quantum_spec b) as (Hb & Hup & _).
  destruct (Z_le_gt_dec (quantum a) (quantum b)) as [Hle|Hgt]; [exact Hle|].
  exfalso.
  assert (H1 : (2 ^ (quantum a + 23) <= a)%Q) by (apply Hlow; lia).
  assert (H2 : (b < 2 ^ (quantum b + 24))%Q) by (apply Hup; lia).
  assert (H3 : (2 ^ (quantum b + 24) <= 2 ^ (quantum a + 23))%Q)
    by (apply pow2_le; lia).
  lra.
Qed.

Lemma round_scaled_mono (e : Z) (a b : Q) :
  (a <= b)%Q ->
  (inject_Z (round_half_even (a / 2 ^ e)) * 2 ^ e
   <= inject_Z (round_half_even (b / 2 ^ e)) * 2 ^ e)%Q.
Proof.
  intros Hab. pose proof (pow2_pos e) as Hpos.
  apply Qmult_le_compat_r; [|lra].
  rewrite <- Zle_Qle. apply round_half_even_mono.
  unfold Qdiv. apply Qmult_le_compat_r; [exact Hab|].
  apply Qinv_le_0_compat. lra.
Qed.

Lemma round_magnitude_mono (a b : Q) :
  (a <= b)%Q -> (round_magnitude a <= round_magnitude b)%Q.
Proof.
  intros Hab. unfold round_magnitude. cbv zeta.
  pose proof (quantum_mono a b Hab) as He.
  destruct (Z.eq_dec (quantum a) (quantum b)) as [Heq|Hne].
  - rewrite Heq. by apply round_scaled_mono.
  - destruct (quantum_spec a) as (Ha & Hup & _).
    destruct (quantum_spec b) as (Hb & _ & Hlow).
    assert (H1 : (a < 2 ^ (quantum a + 24))%Q) by (apply Hup; lia).
    assert (H2 : (2 ^ (quantum b + 23) <= b)%Q) by (apply Hlow; lia).
    pose proof (pow2_pos (quantum a)) as Hpa.
    pose proof (pow2_pos (quantum b)) as Hpb.
    apply Qle_trans with (2 ^ (quantum a + 24))%Q.
    + rewrite pow2_plus, (Qmult_comm (2 ^ quantum a)).
      apply Qmult_le_compat_r; [|lra].
      change (2 ^ 24)%Q with (inject_Z (2 ^ 24)).
      rewrite <- Zle_Qle.
      etransitivity;
        [apply (round_half_even_mono _ (inject_Z (2 ^ 24)))
        |by rewrite round_half_even_inject].
      apply Qle_shift_div_r; [exact Hpa|].
      change (inject_Z (2 ^ 24)) with (2 ^ 24)%Q.
      rewrite Qmult_comm, <- pow2_plus. lra.
    + apply Qle_trans with (2 ^ (quantum b + 23))%Q; [apply pow2_le; lia|].
      rewrite (Z.add_comm (quantum b)), pow2_plus.
      apply Qmult_le_compat_r; [|lra].
      change (2 ^ 23)%Q with (inject_Z (2 ^ 23)).
      rewrite <- Zle_Qle.
      etransitivity;
        [|apply (round_half_even_mono (inject_Z (2 ^ 23)))];
        [by rewrite round_half_even_inject|].
      apply Qle_shift_div_l; [exact Hpb|].
      change (inject_Z (2 ^ 23)) with (2 ^ 23)%Q.
      rewrite <- pow2_plus, Z.add_comm. exact H2.
Qed.

Lemma round_magnitude_0 : (round_magnitude 0 == 0)%Q.
Proof. reflexivity. Qed.

Lemma round_magnitude_nonneg (a : Q) : (0 <= a)%Q -> (0 <= round_magnitude a)%Q.
Proof.
  intros Ha. rewrite <- round_magnitude_0. by apply round_magnitude_mono.
Qed.

(** ** The order of binary32 values *)

Lemma to_float32_cases (q : Q) :
  let v := round_magnitude (Qabs q) in
  (0 <= v)%Q
  /\ (((0 <= q)%Q /\ (2 ^ 128 <= v)%Q /\ to_float32 q = PosInf)
      \/ ((0 <= q)%Q /\ (v < 2 ^ 128)%Q /\ to_float32 q = Finite v)
      \/ ((q < 0)%Q /\ (2 ^ 128 <= v)%Q /\ to_float32 q = NegInf)
      \/ ((q < 0)%Q /\ (v < 2 ^ 128)%Q /\ to_float32 q = Finite (- v))).
Proof.
  intros v. split; [apply round_magnitude_nonneg, Qabs_nonneg|].
  unfold to_float32. fold v.
  destruct (Qle_bool 0 q) eqn:Hs; destruct (Qle_bool (2 ^ 128) v) eqn:Ho.
  - left. apply Qle_bool_iff in Hs, Ho. auto.
  - right; left. apply Qle_bool_iff in Hs. split; [exact Hs|]. split; [|done].
    apply Qnot_le_lt. intros H. apply Qle_bool_iff in H. congruence.
  - right; right; left. apply Qle_bool_iff in Ho.
    split; [|by split]. apply Qnot_le_lt. intros H. apply Qle_bool_iff in H. congruence.
  - right; right; right.
    split; [|split; [|done]]; apply Qnot_le_lt; intros H;
      apply Qle_bool_iff in H; congruence.
Qed.

Lemma to_float32_not_nan (q : Q) : is_nan (to_float32 q) = false.
Proof.
  destruct (to_float32_cases q) as (_ & [H|[H|[H|H]]]);
    destruct H as (_ & _ & ->); reflexivity.
Qed.

(** The conversion keeps the order. *)
Lemma to_float32_mono (q1 q2 : Q) :
  (q1 <= q2)%Q -> lt32 (to_float32 q2) (to_float32 q1) = false.
Proof.
  intros Hq.
  destruct (to_float32_cases q1) as (Hv1 & H1).
  destruct (to_float32_cases q2) as (Hv2 & H2).
  cbv zeta in *.
  assert (Hpos : (0 <= q1)%Q ->
            (round_magnitude (Qabs q1) <= round_magnitude (Qabs q2))%Q).
  { intros H. apply round_magnitude_mono.
    rewrite !Qabs_pos by lra. exact Hq. }
  assert (Hneg : (q2 < 0)%Q ->
            (round_magnitude (Qabs q2) <= round_magnitude (Qabs q1))%Q).
  { intros H. apply round_magnitude_mono.
    rewrite !Qabs_neg by lra. lra. }
  destruct H1 as [H1|[H1|[H1|H1]]]; destruct H1 as (Hs1 & Ho1 & ->);
    destruct H2 as [H2|[H2|[H2|H2]]]; destruct H2 as (Hs2 & Ho2 & ->);
    cbn [lt32]; try reflexivity; try (exfalso; lra);
    try (specialize (Hpos Hs1)); try (specialize (Hneg Hs2));
    try (exfalso; lra); apply Qltb_ge; lra.
Qed.

Lemma to_float32_nonpos (q : Q) :
  (q <= 0)%Q -> lt32 (Finite 0) (to_float32 q) = false.
Proof.
  intros Hq. destruct (to_float32_cases q) as (Hv & H). cbv zeta in *.
  assert (Hz : (0 <= q)%Q -> (round_magnitude (Qabs q) <= 0)%Q).
  { intros H0. rewrite <- round_magnitude_0. apply round_magnitude_mono.
    rewrite Qabs_pos by exact H0. exact Hq. }
  destruct H as [H|[H|[H|H]]]; destruct H as (Hs & Ho & ->); cbn [lt32];
    try reflexivity.
  - exfalso. specialize (Hz Hs). assert (0 < 2 ^ 128)%Q by apply pow2_pos. lra.
  - apply Qltb_ge. by apply Hz.
  - apply Qltb_ge. lra.
Qed.

(** A positive binary32 difference of two scores means that the first
    score is the greater one. *)
Lemma positive_difference (a b : Q) :
  lt32 (Finite 0) (sub32 (to_float32 a) (to_float32 b)) = true -> (b < a)%Q.
Proof.
  intros Hpos. apply Qnot_le_lt. intros Hle.
  pose proof (to_float32_mono a b Hle) as Hmono.
  pose proof (to_float32_not_nan a) as Ha.
  pose proof (to_float32_not_nan b) as Hb.
  destruct (to_float32 a) as [x| | |], (to_float32 b) as [y| | |];
    try discriminate Ha; try discriminate Hb;
    try discriminate Hmono; try discriminate Hpos.
  cbn [sub32] in Hpos. cbn [lt32] in Hmono. apply Qltb_ge in Hmono.
  rewrite to_float32_nonpos in Hpos by lra. discriminate.
Qed.

Lemma lt32_irrefl (x : float32) : lt32 x x = false.
Proof. destruct x; cbn [lt32]; try reflexivity. apply Qltb_ge. lra. Qed.

Lemma lt32_trans (x y z : float32) :
  lt32 x y = true -> lt32 y z = true -> lt32 x z = true.
Proof.
  destruct x, y, z; cbn [lt32]; try discriminate; try reflexivity.
  rewrite !Qltb_lt. lra.
Qed.

(** [y <= best < x] gives [y < x]. *)
Lemma lt32_le_lt (y best x : float32) :
  is_nan y = false ->
  lt32 best y = false -> lt32 best x = true -> lt32 y x = true.
Proof.
  destruct y, best, x; cbn [lt32 is_nan]; try discriminate; try reflexivity.
  rewrite Qltb_ge, !Qltb_lt. lra.
Qed.

(** [best < x] and [best >= y] give [x >= y]. *)
Lemma lt32_lt_le (y best x : float32) :
  lt32 best y = false -> lt32 best x = true -> lt32 x y = false.
Proof.
  destruct y, best, x; cbn [lt32]; try discriminate; try reflexivity.
  rewrite !Qltb_ge, !Qltb_lt. lra.
Qed.

Lemma beats_not_nan (x best : float32) :
  is_nan x = false -> is_nan best = false -> beats x best = lt32 best x.
Proof. by destruct x, best. Qed.

Lemma max32_not_nan (x y : float32) :
  is_nan x = false -> is_nan y = false ->
  max32 x y = if lt32 x y then y else x.
Proof. by destruct x, y. Qed.

Lemma foldl_max32_NaN (t : list float32) : foldl max32 NaN t = NaN.
Proof. induction t as [|x t IH]; [reflexivity|]. exact IH. Qed.

(** [Tensor.max()] is [NaN] as soon as the tensor holds a [NaN]. *)
Lemma foldl_max32_not_nan (t : list float32) :
  forall x, is_nan (foldl max32 x t) = false ->
    is_nan x = false /\ Forall (fun y => is_nan y = false) t.
Proof.
  induction t as [|y t IH]; intros x H; [by split|].
  cbn [foldl] in H. destruct (IH _ H) as [Hxy Ht].
  assert (is_nan x = false /\ is_nan y = false) as [Hx Hy].
  { destruct x, y; cbn in Hxy; try discriminate; by split. }
  split; [exact Hx|]. by constructor.
Qed.

(** On a tensor without [NaN], [argmax] points at the value of [max], which
    no entry exceeds, and every entry before it is smaller. *)
Lemma argmax_from_spec (t : list float32) :
  forall (seen : list float32) (best_i : nat) (best : float32),
    Forall (fun y => is_nan y = false) seen ->
    Forall (fun y => is_nan y = false) t ->
    is_nan best = false ->
    seen !! best_i = Some best ->
    (forall j y, seen !! j = Some y -> lt32 best y = false) ->
    (forall j y, j < best_i -> seen !! j = Some y -> lt32 y best = true) ->
    let i := argmax_from best_i best (length seen) t in
    let m := foldl max32 best t in
    (seen ++ t) !! i = Some m
    /\ (forall j y, (seen ++ t) !! j = Some y -> lt32 m y = false)
    /\ (forall j y, j < i -> (seen ++ t) !! j = Some y -> lt32 y m = true).
Proof.
  induction t as [|x t IH]; intros seen best_i best Hseen Ht Hbest Hi Hmax Hfirst.
  - cbn [argmax_from foldl]. rewrite app_nil_r. auto.
  - apply Forall_cons in Ht as [Hx Ht].
    cbn [argmax_from foldl]. cbv zeta.
    rewrite (beats_not_nan x best Hx Hbest), (max32_not_nan best x Hbest Hx).
    replace (seen ++ x :: t) with ((seen ++ [x]) ++ t) by (by rewrite <- app_assoc).
    replace (S (length seen)) with (length (seen ++ [x]))
      by (rewrite length_app; simpl; lia).
    assert (Hseen' : Forall (fun y => is_nan y = false) (seen ++ [x])).
    { apply Forall_app. split; [exact Hseen|]. by constructor. }
    destruct (lt32 best x) eqn:Hlt.
    + apply IH; try done.
      * rewrite lookup_app_r by lia. by rewrite Nat.sub_diag.
      * intros j y Hj. apply lookup_app_Some in Hj as [Hj|[_ Hj]].
        -- exact (lt32_lt_le y best x (Hmax j y Hj) Hlt).
        -- destruct (j - length seen) as [|k]; [|done].
           injection Hj as <-. apply lt32_irrefl.
      * intros j y Hlen Hj. rewrite lookup_app_l in Hj by lia.
        apply (lt32_le_lt y best x); [|exact (Hmax j y Hj)|exact Hlt].
        eapply (proj1 (Forall_lookup _ _) Hseen); exact Hj.
    + apply lookup_lt_Some in Hi as Hlen.
      apply IH; try done.
      * by rewrite lookup_app_l.
      * intros j y Hj. apply lookup_app_Some in Hj as [Hj|[_ Hj]].
        -- exact (Hmax j y Hj).
        -- destruct (j - length seen) as [|k]; [|done].
           by injection Hj as <-.
      * intros j y Hjb Hj. rewrite lookup_app_l in Hj by lia.
        exact (Hfirst j y Hjb Hj).
Qed.

Lemma improves_cases (t : list float32) :
  improves t = true ->
  exists m,
    t !! argmax t = Some m
    /\ lt32 (Finite 0) m = true
    /\ (forall j y, t !! j = Some y -> is_nan y = false /\ lt32 m y = false)
    /\ (forall j y, j < argmax t -> t !! j = Some y -> lt32 y m = true).
Proof.
  destruct t as [|x t]; [discriminate|].
  unfold improves, tensor_max, argmax. intros Hpos.
  assert (Hnan : is_nan (foldl max32 x t) = false)
    by (by destruct (foldl max32 x t)).
  destruct (foldl_max32_not_nan t x Hnan) as [Hx Ht].
  destruct (argmax_from_spec t [x] 0 x) as (Hi & Hmax & Hfirst); try done.
  - by constructor.
  - intros [|j] y; [|done]. intros [= <-]. apply lt32_irrefl.
  - intros j y Hj. lia.
  - exists (foldl max32 x t).
    split; [exact Hi|]. split; [exact Hpos|]. split; [|exact Hfirst].
    intros j y Hj. split; [|exact (Hmax j y Hj)].
    assert (Hall : Forall (fun y => is_nan y = false) (x :: t)) by (by constructor).
    exact (proj1 (Forall_lookup _ _) Hall j y Hj).
Qed.

(** ** The score differences of line 94 *)

Lemma diff_scores_lookup (new_results : list GoalFunctionResult) (current : Q)
    (j : nat) :
  diff_scores new_results current !! j
  = (fun r => sub32 (to_float32 (score r)) (to_float32 current))
      <$> new_results !! j.
Proof.
  unfold diff_scores, tensor_sub, Tensor. rewrite !lookup_map.
  by destruct (new_results !! j).
Qed.

Lemma length_diff_scores (new_results : list GoalFunctionResult) (current : Q) :
  length (diff_scores new_results current) = length new_results.
Proof. unfold diff_scores, tensor_sub, Tensor. by rewrite !length_map. Qed.

(** When line 97 finds an improvement, the result it picks beats the
    current score, and its binary32 difference is the first greatest one of
    the batch. *)
Lemma improves_argmax (new_results : list GoalFunctionResult) (current : Q)
    (new_result : GoalFunctionResult) :
  improves (diff_scores new_results current) = true ->
  new_results !! argmax (diff_scores new_results current) = Some new_result ->
  (current < score new_result)%Q
  /\ first_maximal (diff_scores new_results current)
       (argmax (diff_scores new_results current)).
Proof.
  intros Himp Hres.
  destruct (improves_cases _ Himp) as (m & Hm & Hpos & Hmax & Hfirst).
  split; [|by exists m].
  rewrite diff_scores_lookup, Hres in Hm. injection Hm as <-.
  by apply positive_difference.
Qed.

(** ** Facts about the monad *)

Section MonadFacts.

Context {E : Type}.
Variable ga : GeneticAlgorithm E.

Lemma prepend_nil {A} (r : Run E A) : prepend [] r = r.
Proof. destruct r; reflexivity. Qed.

Lemma prepend_prepend {A} (evs1 evs2 : list Event) (r : Run E A) :
  prepend evs1 (prepend evs2 r) = prepend (evs1 ++ evs2) r.
Proof. unfold prepend; simpl. by rewrite app_assoc. Qed.

Lemma bind_ret {A B} (a : A) (k : A -> M E B) (s : State E) :
  bind (ret a) k s = k a s.
Proof. unfold bind, ret; simpl. by destruct (k a s). Qed.

Lemma bind_raise {A B} (e : PyError) (k : A -> M E B) (s : State E) :
  bind (raise e) k s = mkRun (Raise e) s [].
Proof. reflexivity. Qed.

Lemma bind_lift {A B} (f : E -> A * E) (k : A -> M E B) (s : State E) :
  bind (lift f) k s = k (f (env s)).1 (mkState (f (env s)).2 (_search_over s)).
Proof.
  unfold bind, lift. destruct (f (env s)) as [a e']; simpl.
  by destruct (k a _).
Qed.

Lemma bind_emit {B} (ev : Event) (k : unit -> M E B) (s : State E) :
  bind (emit ev) k s = prepend [ev] (k tt s).
Proof. reflexivity. Qed.

Lemma bind_read {B} (k : bool -> M E B) (s : State E) :
  bind read_search_over k s = k (_search_over s) s.
Proof. unfold bind, read_search_over; simpl. by destruct (k _ s). Qed.

Lemma bind_write {B} (b : bool) (k : unit -> M E B) (s : State E) :
  bind (write_search_over b) k s = k tt (mkState (env s) b).
Proof. unfold bind, write_search_over; simpl. by destruct (k tt _). Qed.

Lemma bind_bind {A B C} (m : M E A) (k : A -> M E B) (h : B -> M E C) (s : State E) :
  bind (bind m k) h s = bind m (fun a => bind (k a) h) s.
Proof.
  unfold bind; simpl. destruct (outcome (m s)); simpl; [|reflexivity].
  destruct (outcome (k a (final (m s)))); simpl; [|reflexivity].
  by rewrite app_assoc.
Qed.

Lemma bind_getitem_Some {A B} (l : list A) (i : nat) (a : A) (k : A -> M E B)
    (s : State E) :
  l !! i = Some a -> bind (getitem l i) k s = k a s.
Proof. intros H. unfold getitem. rewrite H. apply bind_ret. Qed.

Lemma bind_getitem_None {A B} (l : list A) (i : nat) (k : A -> M E B) (s : State E) :
  l !! i = None -> bind (getitem l i) k s = mkRun (Raise IndexError) s [].
Proof. intros H. unfold getitem. by rewrite H. Qed.

Lemma bind_call_get_transformations {B} (current original : AttackedText)
    (idx : nat) (k : list AttackedText -> M E B) (s : State E) :
  bind (call_get_transformations ga current original idx) k s
  = prepend [CallTransformations current idx]
      (k (get_transformations ga current original [idx] (env s)).1
         (mkState (get_transformations ga current original [idx] (env s)).2
            (_search_over s))).
Proof.
  unfold call_get_transformations.
  rewrite bind_bind, bind_lift, bind_bind, bind_emit. by rewrite bind_ret.
Qed.

Lemma bind_call_get_goal_results {B} (batch : list AttackedText)
    (k : list GoalFunctionResult -> M E B) (s : State E) :
  bind (call_get_goal_results ga batch) k s
  = prepend [CallGoalResults batch (scored ga batch s) (reported_over ga batch s)]
      (k (scored ga batch s) (after_scoring ga batch s)).
Proof.
  unfold call_get_goal_results, after_scoring, scored, reported_over.
  rewrite bind_bind, bind_lift.
  destruct (get_goal_results ga batch (env s)) as [[new_results over] e']; simpl.
  rewrite bind_bind, bind_emit, bind_bind, bind_write. by rewrite bind_ret.
Qed.

Lemma bind_call_check_constraints {B} (child previous original : AttackedText)
    (k : bool -> M E B) (s : State E) :
  bind (call_check_constraints ga child previous original) k s
  = prepend
      [CallConstraints child previous
         (_check_constraints ga child previous original (env s)).1]
      (k (_check_constraints ga child previous original (env s)).1
         (mkState (_check_constraints ga child previous original (env s)).2
            (_search_over s))).
Proof.
  unfold call_check_constraints.
  rewrite bind_bind, bind_lift, bind_bind, bind_emit. by rewrite bind_ret.
Qed.

Lemma bind_call_crossover_operation {B} (pm1 pm2 : PopulationMember)
    (k : AttackedText * list nat -> M E B) (s : State E) :
  bind (call_crossover_operation ga pm1 pm2) k s
  = prepend [CallCrossoverOperation]
      (k (_crossover_operation ga pm1 pm2 (env s)).1
         (mkState (_crossover_operation ga pm1 pm2 (env s)).2 (_search_over s))).
Proof.
  unfold call_crossover_operation.
  rewrite bind_bind, bind_lift, bind_bind, bind_emit. by rewrite bind_ret.
Qed.

End MonadFacts.

(** Induction on a run of the mutation loop, with the names the proofs
    below use: [Hpos] for the choice of the position, [Hover] for the flag
    the goal function reported, [Himp] for the test of line 97. *)
Ltac perturb_run_cases H :=
  induction H as
    [v s|n v s Hi Hs|n v s idx s1 r Hpos Hc Hrun IH
    |n v s idx s1 Hpos batch s2 Hne Hover
    |n v s idx s1 new_text new_result Hpos batch s2 diffs Hne Hover Himp Ht Hr
    |n v s idx s1 Hpos batch s2 diffs Hne Hover Himp Ht
    |n v s idx s1 r Hpos batch s2 diffs Hne Hover Himp Hlt Hrun IH
    |n v s idx s1 Hpos batch s2 diffs Hne Hover Himp Hge].

(** ** The mutation loop makes the runs of [perturb_run] *)

Section PerturbFacts.

Context {E : Type}.
Variable ga : GeneticAlgorithm E.
Variables (pm : PopulationMember) (orig : GoalFunctionResult) (index : option nat).

Lemma length_zero_iff_nil {A} (l : list A) : (length l =? 0) = true <-> l = [].
Proof. rewrite Nat.eqb_eq. destruct l; simpl; split; intros; congruence. Qed.

Lemma argmax_from_lt (t : list float32) :
  forall best_i best i, best_i < i -> argmax_from best_i best i t < i + length t.
Proof.
  induction t as [|x t IH]; intros best_i best i Hlt; simpl; [lia|].
  destruct (beats x best).
  - specialize (IH i x (S i)). lia.
  - specialize (IH best_i best (S i)). lia.
Qed.

Lemma argmax_lt (t : list float32) : t <> [] -> argmax t < length t.
Proof.
  destruct t as [|x t]; [congruence|]. intros _. unfold argmax; simpl.
  pose proof (argmax_from_lt t 0 x 1). lia.
Qed.

Lemma improves_nonempty (t : list float32) : improves t = true -> t <> [].
Proof. destruct t; [discriminate|congruence]. Qed.

Lemma perturb_loop_run (n : nat) :
  forall v s,
    perturb_run ga pm orig index n v s (perturb_loop ga pm orig index n v s).
Proof.
  induction n as [|n IH]; intros v s; [apply perturb_exhausted|].
  cbn [perturb_loop].
  (* the pass, once the position is chosen *)
  match goal with
  | |- perturb_run _ _ _ _ _ _ _ (bind _ ?pass s) =>
      assert (Hpass : forall idx s1,
                position_chosen ga index v s idx s1 ->
                perturb_run ga pm orig index (S n) v s (pass idx s1))
  end.
  { intros idx s1 Hpos. cbv beta. rewrite bind_call_get_transformations.
    fold (candidates ga pm orig idx s1). fold (after_candidates ga pm orig idx s1).
    set (batch := candidates ga pm orig idx s1).
    set (s2 := after_candidates ga pm orig idx s1).
    destruct (length batch =? 0) eqn:Hlen.
    { apply length_zero_iff_nil in Hlen. eapply perturb_no_candidates; eauto. }
    assert (Hne : batch <> []).
    { intros Hnil. apply length_zero_iff_nil in Hnil. congruence. }
    rewrite bind_call_get_goal_results, bind_read.
    change (_search_over (after_scoring ga batch s2))
      with (reported_over ga batch s2).
    destruct (reported_over ga batch s2) eqn:Hover.
    { exact (perturb_search_over ga pm orig index n v s idx s1 Hpos Hne Hover). }
    cbv zeta.
    set (diffs := diff_scores (scored ga batch s2) (score (result pm))).
    destruct (improves diffs) eqn:Himp.
    - destruct (batch !! argmax diffs) as [new_text|] eqn:Htext.
      + destruct (scored ga batch s2 !! argmax diffs) as [new_result|] eqn:Hres.
        * erewrite bind_getitem_Some by exact Htext.
          erewrite bind_getitem_Some by exact Hres.
          exact (perturb_commit ga pm orig index n v s idx s1 new_text new_result
                   Hpos Hne Hover Himp Htext Hres).
        * exfalso. apply lookup_ge_None in Hres.
          pose proof (argmax_lt _ (improves_nonempty _ Himp)) as Hlt.
          unfold diffs in Hlt, Hres. rewrite length_diff_scores in Hlt. lia.
      + erewrite bind_getitem_None by exact Htext.
        exact (perturb_commit_error ga pm orig index n v s idx s1
                 Hpos Hne Hover Himp Htext).
    - unfold setitem. case_bool_decide as Hidx.
      + rewrite bind_ret.
        exact (perturb_zero ga pm orig index n v s idx s1 _
                 Hpos Hne Hover Himp Hidx (IH _ _)).
      + rewrite bind_raise.
        apply (perturb_zero_error ga pm orig index n v s idx s1
                 Hpos Hne Hover Himp). lia. }
  (* the choice of the position *)
  assert (Hdraw : truthy index = false ->
            forall pass : nat -> M E PopulationMember,
              (forall idx s1,
                 position_chosen ga index v s idx s1 ->
                 perturb_run ga pm orig index (S n) v s (pass idx s1)) ->
              perturb_run ga pm orig index (S n) v s
                (bind (sample_position ga v) pass s)).
  { intros Hfalsy pass Hrun. unfold sample_position.
    destruct (np_sum v =? 0) eqn:Hsum.
    - rewrite bind_raise. apply perturb_nan; [exact Hfalsy|by apply Nat.eqb_eq].
    - rewrite bind_lift. apply Hrun. apply Nat.eqb_neq in Hsum.
      destruct index as [[|i]|]; try discriminate; simpl; auto. }
  destruct index as [[|i]|].
  - by apply Hdraw.
  - rewrite bind_ret. apply Hpass. simpl. auto.
  - by apply Hdraw.
Qed.

Lemma perturb_run_of_perturb (s : State E) :
  _perturb ga pm orig index s = mkRun (Return pm) s []
  \/ (0 < count_nonzero (num_replacements_per_word pm)
      /\ perturb_run ga pm orig index
           (count_nonzero (num_replacements_per_word pm))
           (num_replacements_per_word pm) s (_perturb ga pm orig index s)).
Proof.
  unfold _perturb; cbv zeta.
  destruct (count_nonzero (num_replacements_per_word pm) =? 0) eqn:Hz.
  - by left.
  - right. apply Nat.eqb_neq in Hz. split; [lia|]. apply perturb_loop_run.
Qed.

(** *** The three ways a run can end *)

Lemma commits_best_prepend (evs : list Event) (r : Run E PopulationMember) :
  commits_best ga pm r -> commits_best ga pm (prepend evs r).
Proof.
  intros (idx & batch & res & t & x & pre & i & Hout & Hev & H).
  exists idx, batch, res, t, x, (evs ++ pre), i. split; [exact Hout|].
  split; [|exact H]. simpl. rewrite Hev. by rewrite app_assoc.
Qed.

Lemma perturb_run_outcome n v s r :
  perturb_run ga pm orig index n v s r ->
  (exists e, outcome r = Raise e) \/ outcome r = Return pm \/ commits_best ga pm r.
Proof.
  intros Hrun; perturb_run_cases Hrun; simpl; eauto.
  - destruct IH as [?|[?|?]]; eauto using commits_best_prepend.
  - right; right.
    destruct (improves_argmax _ _ _ Himp Hr) as [Hlt Hmax].
    exists idx, batch, (scored ga batch s2), new_text, new_result, [],
      (argmax diffs). repeat split; auto.
  - destruct IH as [?|[?|?]]; eauto using commits_best_prepend.
Qed.

(** *** With well-behaved collaborators the loop returns *)

Lemma count_nonzero_cons (x : nat) (v : list nat) :
  count_nonzero (x :: v) = (if decide (x = 0) then 0 else 1) + count_nonzero v.
Proof.
  unfold count_nonzero. rewrite filter_cons.
  destruct (decide (x <> 0)), (decide (x = 0)); simpl; try lia; congruence.
Qed.

Lemma count_nonzero_sum (v : list nat) : 0 < count_nonzero v -> np_sum v <> 0.
Proof.
  induction v as [|x v IH]; [unfold count_nonzero; simpl; lia|].
  rewrite count_nonzero_cons. simpl. destruct (decide (x = 0)); lia.
Qed.

Lemma count_nonzero_insert (v : list nat) :
  forall i k, v !! i = Some (S k) ->
    count_nonzero v = S (count_nonzero (<[i := 0]> v)).
Proof.
  induction v as [|x v IH]; intros [|i] k Hl; simpl in Hl; try discriminate.
  - injection Hl as ->. simpl. rewrite !count_nonzero_cons. simpl. reflexivity.
  - simpl. rewrite !count_nonzero_cons. rewrite (IH i k Hl). lia.
Qed.

Lemma position_chosen_flag v s idx s1 :
  position_chosen ga index v s idx s1 -> _search_over s1 = _search_over s.
Proof.
  unfold position_chosen. destruct index as [[|i]|]; intros H;
    [destruct H as (_ & _ & ->)|destruct H as [_ ->]|destruct H as (_ & _ & ->)];
    reflexivity.
Qed.

Lemma position_chosen_sampled v s idx s1 :
  truthy index = false ->
  draws_from_support ga ->
  position_chosen ga index v s idx s1 ->
  exists k, v !! idx = Some (S k).
Proof.
  unfold position_chosen. intros Hf Hsup Hpos.
  destruct index as [[|i]|]; try discriminate;
    destruct Hpos as (Hsum & -> & _); by apply Hsup.
Qed.

Lemma position_chosen_fixed v s idx s1 i :
  index = Some (S i) ->
  position_chosen ga index v s idx s1 -> idx = S i.
Proof. intros ->. simpl. tauto. Qed.

Lemma perturb_run_returns n v s r :
  draws_from_support ga ->
  one_result_per_text ga ->
  (forall i, index = Some (S i) -> S i < length v) ->
  (truthy index = false -> n <= count_nonzero v) ->
  perturb_run ga pm orig index n v s r ->
  exists pm', outcome r = Return pm'.
Proof.
  intros Hsup Hshape Hidx Hcount Hrun. revert Hidx Hcount.
  perturb_run_cases Hrun;
    intros Hidx Hcount; simpl; eauto.
  - exfalso. specialize (Hcount Hi).
    apply (count_nonzero_sum v); [lia|exact Hs].
  - apply IH; [exact Hidx|]. intros Hf. specialize (Hcount Hf). lia.
  - exfalso. apply lookup_ge_None in Ht.
    pose proof (argmax_lt _ (improves_nonempty _ Himp)) as Hlt.
    unfold diffs in Hlt, Ht. rewrite length_diff_scores in Hlt.
    pose proof (Hshape batch (env s2)) as Hlen.
    unfold scored in Hlt, Ht. lia.
  - apply IH.
    + intros i Hi. rewrite length_insert. by apply Hidx.
    + intros Hf. specialize (Hcount Hf).
      destruct (position_chosen_sampled _ _ _ _ Hf Hsup Hpos) as [k Hk].
      pose proof (count_nonzero_insert v idx k Hk). lia.
  - exfalso. destruct (truthy index) eqn:Hf.
    + destruct index as [[|i]|]; try discriminate.
      simpl in Hpos. destruct Hpos as [-> _].
      specialize (Hidx i eq_refl). lia.
    + destruct (position_chosen_sampled _ _ _ _ Hf Hsup Hpos) as [k Hk].
      apply lookup_lt_Some in Hk. lia.
Qed.

(** *** A commit shows in the log *)

Lemma commits_best_logged (r : Run E PopulationMember) :
  commits_best ga pm r ->
  exists batch new_results over c,
    CallGoalResults batch new_results over ∈ events r
    /\ c ∈ new_results
    /\ (score (result pm) < score c)%Q.
Proof.
  intros (idx & batch & res & t & x & pre & i & _ & Hev & _ & Hx & Hlt & _).
  exists batch, res, false, x. split; [|split; [|exact Hlt]].
  - rewrite Hev. apply elem_of_app. right.
    apply list_elem_of_further, list_elem_of_here.
  - eapply list_elem_of_lookup_2; eauto.
Qed.

End PerturbFacts.

(** ** Which positions the mutation loop samples *)

Section SamplingFacts.

Context {E : Type}.
Variable ga : GeneticAlgorithm E.
Variables (pm : PopulationMember) (orig : GoalFunctionResult) (index : option nat).

Lemma sampled_positions_app (evs1 evs2 : list Event) :
  sampled_positions (evs1 ++ evs2)
  = sampled_positions evs1 ++ sampled_positions evs2.
Proof. apply omap_app. Qed.

(** A position whose working budget is 0 is not drawn in the rest of the
    call. *)
Lemma perturb_run_skips_zero n v s r :
  truthy index = false ->
  draws_from_support ga ->
  perturb_run ga pm orig index n v s r ->
  forall i, v !! i = Some 0 -> i ∉ sampled_positions (events r).
Proof.
  intros Hf Hsup Hrun.
  perturb_run_cases Hrun;
    intros i Hi0; simpl; try apply not_elem_of_nil;
    destruct (position_chosen_sampled ga index _ _ _ _ Hf Hsup Hpos) as [k Hk];
    assert (Hneq : i <> idx) by (intros ->; congruence).
  - intros [->|Hin]%elem_of_cons; [done|]. by apply (IH i).
  - by intros ->%list_elem_of_singleton.
  - by intros ->%list_elem_of_singleton.
  - by intros ->%list_elem_of_singleton.
  - intros [->|Hin]%elem_of_cons; [done|]. apply (IH i); [|exact Hin].
    rewrite list_lookup_insert_ne; [exact Hi0|congruence].
  - by intros ->%list_elem_of_singleton.
Qed.

(** The log of the loop is empty or starts with a transformation call. *)
Lemma perturb_run_head n v s r :
  perturb_run ga pm orig index n v s r ->
  events r = [] \/ exists c i rest, events r = CallTransformations c i :: rest.
Proof. destruct 1; simpl; eauto. Qed.

(** A position that got a batch scored is not drawn again: either the call
    ends with that batch, or line 107 zeroes the position. *)
Lemma perturb_run_no_resample n v s r :
  truthy index = false ->
  draws_from_support ga ->
  perturb_run ga pm orig index n v s r ->
  forall pre c i batch new_results over post,
    events r
    = pre ++ CallTransformations c i :: CallGoalResults batch new_results over :: post ->
    i ∉ sampled_positions post.
Proof.
  intros Hf Hsup Hrun.
  perturb_run_cases Hrun;
    intros pre c i b res over post Hev; cbv [pass_calls prepend] in Hev;
    simpl in Hev.
  - by destruct pre.
  - by destruct pre.
  - destruct pre as [|ev pre]; simplify_eq/=.
    + destruct (perturb_run_head _ _ _ _ Hrun) as [Hnil|(c' & i' & rest & Hc')];
        congruence.
    + by eapply IH.
  - destruct pre as [|ev1 [|ev2 [|ev3 pre]]]; simplify_eq/=.
    apply not_elem_of_nil.
  - destruct pre as [|ev1 [|ev2 [|ev3 pre]]]; simplify_eq/=.
    apply not_elem_of_nil.
  - destruct pre as [|ev1 [|ev2 [|ev3 pre]]]; simplify_eq/=.
    apply not_elem_of_nil.
  - destruct pre as [|ev1 [|ev2 pre]]; simplify_eq/=.
    + eapply (perturb_run_skips_zero _ _ _ _ Hf Hsup Hrun).
      by apply list_lookup_insert_eq.
    + by eapply IH.
  - destruct pre as [|ev1 [|ev2 [|ev3 pre]]]; simplify_eq/=.
    apply not_elem_of_nil.
Qed.

(** A fixed index other than 0 is the position of every pass. *)
Lemma perturb_run_fixed_index n v s r i :
  index = Some (S i) ->
  perturb_run ga pm orig index n v s r ->
  Forall (fun idx => idx = S i) (sampled_positions (events r)).
Proof.
  intros Hindex Hrun.
  perturb_run_cases Hrun;
    simpl; try (by constructor);
    pose proof (position_chosen_fixed ga index _ _ _ _ i Hindex Hpos) as ->;
    repeat constructor.
  - exact IH.
  - exact IH.
Qed.

Lemma perturb_fixed_index (s : State E) (i : nat) :
  index = Some (S i) ->
  Forall (fun idx => idx = S i)
    (sampled_positions (events (_perturb ga pm orig index s))).
Proof.
  intros Hindex.
  destruct (perturb_run_of_perturb ga pm orig index s) as [->|[_ Hrun]].
  - constructor.
  - by eapply perturb_run_fixed_index.
Qed.

End SamplingFacts.

(** ** The crossover retry loop makes the runs of [crossover_run] *)

Section CrossoverFacts.

Context {E : Type}.
Variable ga : GeneticAlgorithm E.
Variables (pm1 pm2 : PopulationMember) (original_text : AttackedText).

(** One pass of the loop. *)
Lemma crossover_loop_unfold (k : nat) (s : State E) :
  crossover_loop ga pm1 pm2 original_text k s
  = prepend [CallCrossoverOperation]
      (if skips_validation ga (attacked_text pm1) (attacked_text pm2)
            (recombined ga pm1 pm2 s)
       then mkRun (Return (recombined ga pm1 pm2 s, recombined_budget ga pm1 pm2 s, false))
              (after_recombination ga pm1 pm2 s) []
       else
         match last_transformation (recombined ga pm1 pm2 s) with
         | None =>
             mkRun (Return (recombined ga pm1 pm2 s, recombined_budget ga pm1 pm2 s, true))
               (after_recombination ga pm1 pm2 s) []
         | Some _ =>
             prepend
               [CallConstraints (recombined ga pm1 pm2 s) (previous_text pm1 pm2)
                  (verdict ga pm1 pm2 original_text s)]
               (if verdict ga pm1 pm2 original_text s
                then mkRun (Return (recombined ga pm1 pm2 s,
                                    recombined_budget ga pm1 pm2 s, true))
                       (after_validation ga pm1 pm2 original_text s) []
                else
                  match k with
                  | 0 => mkRun (Return (recombined ga pm1 pm2 s,
                                        recombined_budget ga pm1 pm2 s, false))
                           (after_validation ga pm1 pm2 original_text s) []
                  | S k' =>
                      crossover_loop ga pm1 pm2 original_text k'
                        (after_validation ga pm1 pm2 original_text s)
                  end)
         end).
Proof.
  unfold verdict, after_validation, recombined, recombined_budget,
    after_recombination, previous_text.
  destruct k; cbn [crossover_loop]; rewrite bind_call_crossover_operation;
    destruct (_crossover_operation ga pm1 pm2 (env s)) as [[raw budget] e'];
    cbn [fst snd env _search_over];
    (destruct (skips_validation ga _ _ _); [reflexivity|]);
    (destruct (last_transformation (crossover_attrs _ _ raw));
       [|by rewrite bind_ret]);
    rewrite bind_call_check_constraints; cbn [env _search_over];
    destruct (_check_constraints ga _ _ _ e') as [[|] e'']; reflexivity.
Qed.

Lemma crossover_loop_run (k : nat) :
  forall s,
    crossover_run ga pm1 pm2 original_text k s
      (crossover_loop ga pm1 pm2 original_text k s).
Proof.
  induction k as [|k IH]; intros s; rewrite crossover_loop_unfold;
    (destruct (skips_validation ga _ _ _) eqn:Hskip;
       [by apply crossover_skipped|]);
    (destruct (last_transformation (recombined ga pm1 pm2 s)) eqn:Htag;
       [|by apply crossover_untagged]);
    assert (Hsome : last_transformation (recombined ga pm1 pm2 s) <> None)
      by congruence;
    destruct (verdict ga pm1 pm2 original_text s) eqn:Hv.
  - by apply crossover_validated.
  - by apply crossover_rejected_last.
  - by apply crossover_validated.
  - rewrite prepend_prepend. by apply crossover_rejected_retry.
Qed.

Lemma count_events_app (p : Event -> bool) (evs1 evs2 : list Event) :
  count_events p (evs1 ++ evs2) = count_events p evs1 + count_events p evs2.
Proof. unfold count_events. by rewrite filter_app, length_app. Qed.

Lemma count_events_singleton (p : Event -> bool) (ev : Event) :
  count_events p [ev] = if p ev then 1 else 0.
Proof.
  unfold count_events. rewrite filter_cons, filter_nil.
  destruct (p ev); reflexivity.
Qed.

Lemma quiet_app (evs1 evs2 : list Event) :
  quiet evs1 -> quiet evs2 -> quiet (evs1 ++ evs2).
Proof. unfold quiet. intros H1 H2. apply Forall_app. auto. Qed.

Lemma skips_validation_false (x1 x2 child : AttackedText) :
  skips_validation ga x1 x2 child = false ->
  post_crossover_check ga = true
  /\ text child <> text x1 /\ text child <> text x2.
Proof.
  unfold skips_validation. intros H.
  apply orb_false_elim in H as [Hc H]. apply orb_false_elim in H as [H1 H2].
  apply negb_false_iff in Hc.
  split; [exact Hc|]. split; intros Heq; apply String.eqb_eq in Heq; congruence.
Qed.

(** What the retry loop does, in numbers. *)
Lemma crossover_run_facts k s r :
  crossover_run ga pm1 pm2 original_text k s r ->
  exists child budget passed,
    outcome r = Return (child, budget, passed)
    /\ _search_over (final r) = _search_over s
    /\ quiet (events r)
    /\ count_events is_oracle_call (events r) = 0
    /\ 1 <= count_events is_recombination (events r) <= S k
    /\ (count_events is_failed_validation (events r) = S k ->
        falls_back ga passed = true).
Proof.
  induction 1 as [k s Hskip|k s Hskip Htag|k s Hskip Htag Hv|s Hskip Htag Hv
                 |k s r Hskip Htag Hv Hrun IH];
    [eexists _, _, _; split; [reflexivity|]; cbn [final events];
     repeat split;
     try reflexivity; try (by repeat constructor); try (cbv; lia);
     try (intros Hc; cbv in Hc; discriminate)..|].
  - intros _. apply skips_validation_false in Hskip as [Hc _].
    unfold falls_back. by rewrite Hc.
  - destruct IH as (child & budget & passed & Hout & Hflag & Hq & Ho & [Hr1 Hr2] & Hf).
    exists child, budget, passed. split; [exact Hout|].
    cbn [prepend events final].
    rewrite !count_events_app.
    change (count_events is_oracle_call (attempt_calls ga pm1 pm2 s false)) with 0.
    change (count_events is_recombination (attempt_calls ga pm1 pm2 s false)) with 1.
    change (count_events is_failed_validation (attempt_calls ga pm1 pm2 s false))
      with 1.
    repeat split; try lia.
    + exact Hflag.
    + apply quiet_app; [repeat constructor|exact Hq].
    + intros Hcount. apply Hf. lia.
Qed.

(** [_crossover], once the loop has run. *)
Lemma crossover_after_loop (s : State E) child budget passed :
  let r0 := crossover_loop ga pm1 pm2 original_text (max_crossover_retries ga) s in
  outcome r0 = Return (child, budget, passed) ->
  _crossover ga pm1 pm2 original_text s
  = prepend (events r0)
      (if falls_back ga passed
       then mkRun (Return (coin_parent ga pm1 pm2 (final r0)))
              (mkState (random_uniform ga (env (final r0))).2
                 (_search_over (final r0))) []
       else
         prepend
           [CallGoalResults [child] (scored ga [child] (final r0))
              (reported_over ga [child] (final r0))]
           (match scored ga [child] (final r0) !! 0 with
            | Some new_result =>
                mkRun (Return (mkPopulationMember child new_result budget))
                  (after_scoring ga [child] (final r0)) []
            | None =>
                mkRun (Raise IndexError) (after_scoring ga [child] (final r0)) []
            end)).
Proof.
  intros r0 Hout. unfold _crossover, bind at 1. fold r0. rewrite Hout.
  unfold prepend at 1. f_equal.
  - destruct (falls_back ga passed).
    + by rewrite bind_lift.
    + rewrite bind_call_get_goal_results. simpl.
      unfold getitem. by destruct (scored ga [child] (final r0) !! 0).
  - destruct (falls_back ga passed).
    + by rewrite bind_lift.
    + rewrite bind_call_get_goal_results. simpl.
      unfold getitem. by destruct (scored ga [child] (final r0) !! 0).
  - destruct (falls_back ga passed).
    + by rewrite bind_lift.
    + rewrite bind_call_get_goal_results. simpl.
      unfold getitem. by destruct (scored ga [child] (final r0) !! 0).
Qed.

Lemma crossover_loop_skipped (k : nat) (s : State E) :
  skips_validation ga (attacked_text pm1) (attacked_text pm2)
    (recombined ga pm1 pm2 s) = true ->
  crossover_loop ga pm1 pm2 original_text k s
  = mkRun (Return (recombined ga pm1 pm2 s, recombined_budget ga pm1 pm2 s, false))
      (after_recombination ga pm1 pm2 s) [CallCrossoverOperation].
Proof. intros H. rewrite crossover_loop_unfold, H. reflexivity. Qed.

Lemma crossover_loop_untagged (k : nat) (s : State E) :
  skips_validation ga (attacked_text pm1) (attacked_text pm2)
    (recombined ga pm1 pm2 s) = false ->
  last_transformation (recombined ga pm1 pm2 s) = None ->
  crossover_loop ga pm1 pm2 original_text k s
  = mkRun (Return (recombined ga pm1 pm2 s, recombined_budget ga pm1 pm2 s, true))
      (after_recombination ga pm1 pm2 s) [CallCrossoverOperation].
Proof. intros H Htag. rewrite crossover_loop_unfold, H, Htag. reflexivity. Qed.

(** The two ways [_crossover] ends after a loop that made one attempt and
    no validation. *)
Lemma crossover_falls_back_at_once (s : State E) (passed : bool) :
  crossover_loop ga pm1 pm2 original_text (max_crossover_retries ga) s
  = mkRun (Return (recombined ga pm1 pm2 s, recombined_budget ga pm1 pm2 s, passed))
      (after_recombination ga pm1 pm2 s) [CallCrossoverOperation] ->
  falls_back ga passed = true ->
  let r := _crossover ga pm1 pm2 original_text s in
  events r = [CallCrossoverOperation]
  /\ outcome r = Return (coin_parent ga pm1 pm2 (after_recombination ga pm1 pm2 s)).
Proof.
  intros Hloop Hfb r. subst r.
  rewrite (crossover_after_loop s _ _ passed) by (by rewrite Hloop).
  rewrite Hloop, Hfb. split; reflexivity.
Qed.

Lemma crossover_scores_at_once (s : State E) (passed : bool) :
  crossover_loop ga pm1 pm2 original_text (max_crossover_retries ga) s
  = mkRun (Return (recombined ga pm1 pm2 s, recombined_budget ga pm1 pm2 s, passed))
      (after_recombination ga pm1 pm2 s) [CallCrossoverOperation] ->
  falls_back ga passed = false ->
  let r := _crossover ga pm1 pm2 original_text s in
  let child := recombined ga pm1 pm2 s in
  exists new_results over,
    events r = [CallCrossoverOperation; CallGoalResults [child] new_results over]
    /\ (forall new_result, new_results !! 0 = Some new_result ->
          outcome r
          = Return (mkPopulationMember child new_result
                      (recombined_budget ga pm1 pm2 s)))
    /\ (new_results = [] -> outcome r = Raise IndexError).
Proof.
  intros Hloop Hfb r child. subst r.
  rewrite (crossover_after_loop s _ _ passed) by (by rewrite Hloop).
  rewrite Hloop, Hfb. cbn [final events]. fold child.
  exists (scored ga [child] (after_recombination ga pm1 pm2 s)),
    (reported_over ga [child] (after_recombination ga pm1 pm2 s)).
  destruct (scored ga [child] _ !! 0) eqn:Hl; (split; [reflexivity|]); split.
  - intros x Hx. simpl. congruence.
  - intros Hnil. rewrite Hnil in Hl. discriminate.
  - intros x Hx. congruence.
  - reflexivity.
Qed.

(** The loop after [n] attempts that were validated and rejected. *)
Lemma crossover_loop_after_rejections (n : nat) :
  forall k s,
    rejected_attempts ga pm1 pm2 original_text n s ->
    crossover_loop ga pm1 pm2 original_text (n + k) s
    = prepend (rejected_calls ga pm1 pm2 original_text n s)
        (crossover_loop ga pm1 pm2 original_text k
           (attempt_state ga pm1 pm2 original_text n s)).
Proof.
  induction n as [|n IH]; intros k s Hrej.
  - cbn [rejected_calls attempt_state Nat.add]. by rewrite prepend_nil.
  - destruct Hrej as (Hskip & Htag & Hv & Hrej).
    cbn [rejected_calls attempt_state Nat.add].
    rewrite (crossover_loop_unfold (S (n + k)) s), Hskip, Hv.
    destruct (last_transformation (recombined ga pm1 pm2 s)); [|done].
    rewrite (IH k _ Hrej), !prepend_prepend. reflexivity.
Qed.

(** With the check enabled, a child that has the text of a parent ends the
    loop at its attempt, and line 182 falls back. *)
Lemma crossover_identical_child_at (n : nat) (s : State E) :
  post_crossover_check ga = true ->
  n <= max_crossover_retries ga ->
  rejected_attempts ga pm1 pm2 original_text n s ->
  let s' := attempt_state ga pm1 pm2 original_text n s in
  text (recombined ga pm1 pm2 s') = text (attacked_text pm1)
  \/ text (recombined ga pm1 pm2 s') = text (attacked_text pm2) ->
  let r := _crossover ga pm1 pm2 original_text s in
  events r
  = rejected_calls ga pm1 pm2 original_text n s ++ [CallCrossoverOperation]
  /\ outcome r = Return (coin_parent ga pm1 pm2 (after_recombination ga pm1 pm2 s')).
Proof.
  intros Hcheck Hn Hrej s' Hsame r.
  assert (Hskip : skips_validation ga (attacked_text pm1) (attacked_text pm2)
                    (recombined ga pm1 pm2 s') = true).
  { unfold skips_validation. rewrite Hcheck. simpl.
    apply orb_true_iff. destruct Hsame as [H|H]; [left|right];
      by apply String.eqb_eq. }
  assert (Hloop :
    crossover_loop ga pm1 pm2 original_text (max_crossover_retries ga) s
    = mkRun (Return (recombined ga pm1 pm2 s', recombined_budget ga pm1 pm2 s', false))
        (after_recombination ga pm1 pm2 s')
        (rejected_calls ga pm1 pm2 original_text n s ++ [CallCrossoverOperation])).
  { replace (max_crossover_retries ga) with (n + (max_crossover_retries ga - n))
      by lia.
    rewrite (crossover_loop_after_rejections n _ s Hrej). fold s'.
    by rewrite (crossover_loop_skipped _ s' Hskip). }
  subst r.
  rewrite (crossover_after_loop s _ _ false) by (by rewrite Hloop).
  rewrite Hloop. unfold falls_back. rewrite Hcheck.
  cbn [andb negb prepend events outcome final]. by rewrite app_nil_r.
Qed.

(** With the check enabled, a first child that has the text of a parent
    ends the loop, and line 182 falls back. *)
Lemma crossover_identical_child (s : State E) :
  post_crossover_check ga = true ->
  text (recombined ga pm1 pm2 s) = text (attacked_text pm1)
  \/ text (recombined ga pm1 pm2 s) = text (attacked_text pm2) ->
  let r := _crossover ga pm1 pm2 original_text s in
  events r = [CallCrossoverOperation]
  /\ outcome r = Return (coin_parent ga pm1 pm2 (after_recombination ga pm1 pm2 s)).
Proof.
  intros Hcheck Hsame.
  assert (Hskip : skips_validation ga (attacked_text pm1) (attacked_text pm2)
                    (recombined ga pm1 pm2 s) = true).
  { unfold skips_validation. rewrite Hcheck. simpl.
    apply orb_true_iff. destruct Hsame as [H|H]; [left|right];
      by apply String.eqb_eq. }
  apply (crossover_falls_back_at_once s false).
  - by apply crossover_loop_skipped.
  - unfold falls_back. by rewrite Hcheck.
Qed.

End CrossoverFacts.

(** ** The log follows the flag *)

Section LogFacts.

Context {E : Type}.
Variable ga : GeneticAlgorithm E.

Lemma flag_follows_log_app (evs1 evs2 : list Event) (over : bool) :
  quiet evs1 ->
  flag_follows_log evs2 over ->
  flag_follows_log (evs1 ++ evs2) over.
Proof.
  unfold flag_follows_log. destruct over.
  - intros Hq (pre & ev & -> & Hpre & Hev).
    exists (evs1 ++ pre), ev. rewrite app_assoc. auto using quiet_app.
  - apply quiet_app.
Qed.

Lemma quiet_search_over_is_last (evs : list Event) :
  quiet evs -> search_over_is_last evs.
Proof.
  induction 1 as [|ev evs Hev Hq IH]; simpl; [done|].
  split; [congruence|exact IH].
Qed.

Lemma flag_follows_log_last (evs : list Event) (over : bool) :
  flag_follows_log evs over -> search_over_is_last evs.
Proof.
  destruct over; simpl; [|apply quiet_search_over_is_last].
  intros (pre & ev & -> & Hpre & Hev).
  induction Hpre as [|ev' pre Hev' Hq IH]; simpl; [tauto|].
  split; [congruence|exact IH].
Qed.

Lemma log_ok_last {A} (s : State E) (r : Run E A) :
  log_ok s r -> search_over_is_last (events r).
Proof.
  unfold log_ok. destruct (_search_over s).
  - by intros [-> _].
  - apply flag_follows_log_last.
Qed.

(** In a log that follows the flag, nothing comes after a call that reports
    [search_over]. *)
Lemma search_over_is_last_split (evs : list Event) :
  search_over_is_last evs ->
  forall pre ev post,
    evs = pre ++ ev :: post -> reports_search_over ev = true -> post = [].
Proof.
  intros Hlast pre. revert evs Hlast.
  induction pre as [|ev' pre IH]; intros evs Hlast ev post -> Hev; simpl in Hlast.
  - by apply Hlast.
  - destruct Hlast as [_ Hlast]. by eapply IH.
Qed.

Lemma log_ok_quiet_step {A} (s : State E) (a : Outcome A) :
  log_ok s (mkRun a s []).
Proof.
  unfold log_ok, flag_follows_log; simpl.
  destruct (_search_over s) eqn:Hs; [auto|constructor].
Qed.

Lemma log_ok_ret {A} (a : A) (s : State E) : log_ok s (ret a s).
Proof. apply log_ok_quiet_step. Qed.

Lemma log_ok_getitem {A} (l : list A) (i : nat) (s : State E) :
  log_ok s (getitem l i s).
Proof. unfold getitem. destruct (l !! i); apply log_ok_quiet_step. Qed.

Lemma log_ok_lift {A} (f : E -> A * E) (s : State E) : log_ok s (lift f s).
Proof.
  unfold log_ok, lift, flag_follows_log. destruct (f (env s)) as [a e']; simpl.
  destruct (_search_over s); [auto|constructor].
Qed.

Lemma log_ok_bind {A B} (m : M E A) (k : A -> M E B) (s : State E) :
  log_ok s (m s) ->
  (forall a, outcome (m s) = Return a -> log_ok (final (m s)) (k a (final (m s)))) ->
  log_ok s (bind m k s).
Proof.
  unfold bind. intros Hm Hk. destruct (outcome (m s)) as [a|e] eqn:Hout.
  - specialize (Hk a eq_refl). unfold log_ok in *; simpl.
    destruct (_search_over s).
    + destruct Hm as [Hev Hflag]. rewrite Hflag in Hk.
      destruct Hk as [Hev' Hflag']. by rewrite Hev, Hev'.
    + destruct (_search_over (final (m s))).
      * destruct Hk as [Hev' Hflag']. by rewrite Hev', app_nil_r, Hflag'.
      * by apply flag_follows_log_app.
  - exact Hm.
Qed.

Lemma log_ok_prepend_quiet {A} (evs : list Event) (s s' : State E) (r : Run E A) :
  _search_over s = false ->
  _search_over s' = false ->
  quiet evs ->
  log_ok s' r ->
  log_ok s (prepend evs r).
Proof.
  unfold log_ok. intros -> ->. simpl. apply flag_follows_log_app.
Qed.

(** A pass that reaches the goal function and ends the call. *)
Lemma log_ok_pass {A} (s s2 : State E) (a : Outcome A) (pm : PopulationMember)
    (idx : nat) (batch : list AttackedText) (over : bool) :
  _search_over s = false ->
  reported_over ga batch s2 = over ->
  log_ok s (mkRun a (after_scoring ga batch s2) (pass_calls ga pm idx batch s2 over)).
Proof.
  intros Hflag Hover. unfold log_ok, after_scoring, flag_follows_log.
  rewrite Hflag. cbn [final events _search_over]. rewrite Hover.
  destruct over.
  - exists [CallTransformations (attacked_text pm) idx],
      (CallGoalResults batch (scored ga batch s2) true).
    repeat split; repeat constructor.
  - repeat constructor.
Qed.

(** The mutation operator, started with the flag down. *)
Lemma perturb_run_log pm orig index n v s r :
  perturb_run ga pm orig index n v s r ->
  _search_over s = false ->
  log_ok s r.
Proof.
  intros Hrun; perturb_run_cases Hrun;
    intros Hflag; try apply log_ok_quiet_step;
    try (by apply log_ok_pass);
    pose proof (position_chosen_flag ga index _ _ _ _ Hpos) as Hflag1;
    rewrite Hflag in Hflag1.
  - eapply log_ok_prepend_quiet; [exact Hflag| |repeat constructor|apply IH];
      exact Hflag1.
  - eapply log_ok_prepend_quiet; [exact Hflag| |repeat constructor|apply IH];
      exact Hover.
Qed.

Lemma perturb_log pm orig index (s : State E) :
  _search_over s = false -> log_ok s (_perturb ga pm orig index s).
Proof.
  intros Hflag.
  destruct (perturb_run_of_perturb ga pm orig index s) as [->|[_ Hrun]].
  - apply log_ok_quiet_step.
  - by eapply perturb_run_log.
Qed.

(** The crossover operator, started with the flag down. *)
Lemma crossover_log pm1 pm2 original_text (s : State E) :
  _search_over s = false -> log_ok s (_crossover ga pm1 pm2 original_text s).
Proof.
  intros Hflag.
  destruct (crossover_run_facts ga pm1 pm2 original_text _ _ _
              (crossover_loop_run ga pm1 pm2 original_text
                 (max_crossover_retries ga) s))
    as (child & budget & passed & Hout & Hkeep & Hquiet & _).
  rewrite (crossover_after_loop ga pm1 pm2 original_text s _ _ _ Hout).
  set (r0 := crossover_loop ga pm1 pm2 original_text (max_crossover_retries ga) s)
    in *.
  rewrite Hflag in Hkeep.
  unfold log_ok. rewrite Hflag.
  destruct (falls_back ga passed); cbn [prepend events final].
  - simpl. rewrite Hkeep, app_nil_r. exact Hquiet.
  - apply flag_follows_log_app; [exact Hquiet|].
    assert (Hfin : forall x : Run E PopulationMember,
              x = match scored ga [child] (final r0) !! 0 with
                  | Some new_result =>
                      mkRun (Return (mkPopulationMember child new_result budget))
                        (after_scoring ga [child] (final r0)) []
                  | None =>
                      mkRun (Raise IndexError) (after_scoring ga [child] (final r0)) []
                  end ->
              events x = []
              /\ _search_over (final x) = reported_over ga [child] (final r0)).
    { intros x ->. by destruct (scored ga [child] (final r0) !! 0). }
    destruct (Hfin _ eq_refl) as [-> ->].
    unfold flag_follows_log. destruct (reported_over ga [child] (final r0)) eqn:Hover.
    + exists [], (CallGoalResults [child] (scored ga [child] (final r0)) true).
      repeat split; constructor.
    + repeat constructor.
Qed.

Lemma log_ok_same_flag {A} (s s' : State E) (r : Run E A) :
  _search_over s = _search_over s' -> log_ok s' r -> log_ok s r.
Proof. unfold log_ok. by intros ->. Qed.

(** The child-construction loop, started with the flag down. *)
Lemma construct_children_log population parent1_idx parent2_idx initial_result
    (idxs : list nat) :
  forall children s,
    _search_over s = false ->
    log_ok s
      (construct_children ga population parent1_idx parent2_idx initial_result
         idxs children s).
Proof.
  induction idxs as [|idx idxs IH]; intros children s Hflag;
    cbn [construct_children]; [apply log_ok_ret|].
  unfold getitem at 1. destruct (parent1_idx !! idx) as [p1|];
    [rewrite bind_ret|apply log_ok_quiet_step].
  unfold getitem at 1. destruct (population !! p1) as [parent1|];
    [rewrite bind_ret|apply log_ok_quiet_step].
  unfold getitem at 1. destruct (parent2_idx !! idx) as [p2|];
    [rewrite bind_ret|apply log_ok_quiet_step].
  unfold getitem at 1. destruct (population !! p2) as [parent2|];
    [rewrite bind_ret|apply log_ok_quiet_step].
  apply log_ok_bind; [by apply crossover_log|]. intros child _.
  generalize (final (_crossover ga parent1 parent2 (result_text initial_result) s)).
  intros s1. rewrite bind_read.
  destruct (_search_over s1) eqn:Hover; [apply log_ok_ret|].
  apply log_ok_bind; [by apply perturb_log|]. intros child' _.
  generalize (final (_perturb ga child initial_result None s1)).
  intros s2. rewrite bind_read.
  destruct (_search_over s2) eqn:Hover'; [apply log_ok_ret|].
  by apply IH.
Qed.

(** One pass of the generation loop, whatever the flag. *)
Lemma generation_log initial_result size population current_score (s : State E) :
  log_ok s (generation ga initial_result size population current_score s).
Proof.
  unfold generation. rewrite bind_read.
  destruct (_search_over s) eqn:Hflag; [apply log_ok_ret|].
  unfold getitem. destruct (sorted_by_score population !! 0) as [top|];
    [rewrite bind_ret|apply log_ok_quiet_step].
  destruct (goal_status (result top)); [apply log_ok_ret| |];
    (destruct (negb _ && _); [apply log_ok_ret|]);
    rewrite !bind_lift;
    (eapply log_ok_same_flag;
     [|apply log_ok_bind;
       [apply construct_children_log; exact Hflag
       |intros children _; apply log_ok_ret]]);
    reflexivity.
Qed.

(** The generation loop. *)
Lemma generations_log initial_result size (iters : nat) :
  forall population current_score s,
    log_ok s (generations ga initial_result size iters population current_score s).
Proof.
  induction iters as [|iters IH]; intros population current_score s;
    cbn [generations]; [apply log_ok_ret|].
  apply log_ok_bind; [apply generation_log|].
  intros [population'|population' current_score'] _; [apply log_ok_ret|apply IH].
Qed.

(** [_perform_search] after the population is initialised. *)
Lemma final_population_unfold initial_result (s : State E) :
  final_population ga initial_result s
  = let init := _initialize_population ga initial_result (pop_size ga) (env s) in
    generations ga initial_result (length init.1.1) (max_iters ga) init.1.1
      (score initial_result) (mkState init.2 init.1.2).
Proof.
  unfold final_population, call_initialize_population.
  rewrite bind_write, bind_bind, bind_lift. cbn [env].
  destruct (_initialize_population ga initial_result (pop_size ga) (env s))
    as [[population over] e'].
  cbn [fst snd]. by rewrite bind_bind, bind_write, bind_ret.
Qed.

Lemma perform_search_events initial_result (s : State E) :
  events (_perform_search ga initial_result s)
  = events (final_population ga initial_result s).
Proof.
  unfold _perform_search, bind at 1.
  destruct (outcome (final_population ga initial_result s)) as [population|e];
    [|reflexivity].
  cbn [events]. unfold getitem.
  destruct (population !! 0); [rewrite bind_ret|rewrite bind_raise];
    cbn [events ret]; apply app_nil_r.
Qed.

End LogFacts.

(** ** The sorted population *)

Lemma elem_of_insert_by_score (x m : PopulationMember) (l : list PopulationMember) :
  m ∈ insert_by_score x l <-> m = x \/ m ∈ l.
Proof.
  induction l as [|y l IH]; simpl.
  - rewrite list_elem_of_singleton. split; [auto|].
    intros [?|H]; [done|]. by apply not_elem_of_nil in H.
  - destruct (Qltb (score (result x)) (score (result y))).
    + rewrite !elem_of_cons, IH. tauto.
    + rewrite !elem_of_cons. tauto.
Qed.

Lemma elem_of_sorted_by_score (m : PopulationMember) (l : list PopulationMember) :
  m ∈ sorted_by_score l <-> m ∈ l.
Proof.
  induction l as [|x l IH]; simpl; [done|].
  rewrite elem_of_insert_by_score, elem_of_cons, IH. tauto.
Qed.

Lemma insert_by_score_headed (x : PopulationMember) (l : list PopulationMember) :
  headed_by_best l -> headed_by_best (insert_by_score x l).
Proof.
  unfold headed_by_best. destruct l as [|y l]; simpl.
  - intros _ top [= <-] m ->%list_elem_of_singleton. apply Qle_refl.
  - intros Hl. specialize (Hl y eq_refl).
    destruct (Qltb (score (result x)) (score (result y))) eqn:Hxy; simpl;
      intros top [= <-] m Hm.
    + apply Qltb_lt in Hxy.
      apply elem_of_cons in Hm as [->|Hm]; [apply Qle_refl|].
      apply elem_of_insert_by_score in Hm as [->|Hm]; [by apply Qlt_le_weak|].
      apply Hl. by apply list_elem_of_further.
    + apply Qltb_ge in Hxy.
      apply elem_of_cons in Hm as [->|Hm]; [apply Qle_refl|].
      eapply Qle_trans; [apply Hl, Hm|exact Hxy].
Qed.

Lemma sorted_by_score_headed (l : list PopulationMember) :
  headed_by_best (sorted_by_score l).
Proof.
  induction l as [|x l IH]; simpl.
  - intros top Htop. discriminate.
  - by apply insert_by_score_headed.
Qed.

(** After the sort of line 214, [population[0]] is a member of the
    population that no member outscores. *)
Lemma sorted_by_score_top (population : list PopulationMember)
    (top : PopulationMember) :
  sorted_by_score population !! 0 = Some top ->
  top ∈ population
  /\ forall m, m ∈ population -> (score (result m) <= score (result top))%Q.
Proof.
  intros Htop. split.
  - apply elem_of_sorted_by_score. eapply list_elem_of_lookup_2, Htop.
  - intros m Hm. apply (sorted_by_score_headed population top Htop).
    by apply elem_of_sorted_by_score.
Qed.

(** A pass that leaves the generation loop leaves it with the sorted
    population, whose head no member outscores. *)
Lemma generation_break_sorted {E} (ga : GeneticAlgorithm E)
    (initial_result : GoalFunctionResult) (size : nat)
    (population : list PopulationMember) (current_score : Q) (s : State E)
    (population' : list PopulationMember) :
  outcome (generation ga initial_result size population current_score s)
  = Return (Break population') ->
  population' = sorted_by_score population /\ headed_by_best population'.
Proof.
  intros Hout.
  assert (Heq : population' = sorted_by_score population).
  { revert Hout. unfold generation. rewrite bind_read.
    destruct (_search_over s); [by intros [= <-]|].
    unfold getitem. destruct (sorted_by_score population !! 0) as [top|];
      [rewrite bind_ret|discriminate].
    destruct (goal_status (result top)); [by intros [= <-]| |];
      (destruct (negb _ && _); [by intros [= <-]|]);
      rewrite !bind_lift; unfold bind at 1;
      match goal with
      | |- context [construct_children ga ?p ?i1 ?i2 ?r ?l ?c ?st] =>
          destruct (outcome (construct_children ga p i1 i2 r l c st))
      end; discriminate. }
  split; [exact Heq|]. rewrite Heq. apply sorted_by_score_headed.
Qed.

(** ** Facts about the concrete instance *)

Lemma last_nonzero_support (w : list nat) :
  np_sum w <> 0 -> exists k, w !! Toy.last_nonzero w = Some (S k).
Proof.
  induction w as [|x w IH]; simpl; [congruence|]. intros Hsum.
  destruct (np_sum w =? 0) eqn:Hz.
  - apply Nat.eqb_eq in Hz. exists (x - 1). simpl. f_equal. lia.
  - apply Nat.eqb_neq in Hz. apply IH, Hz.
Qed.

Lemma toy_draws_from_support check iters oracle op :
  draws_from_support (Toy.engine check iters oracle op).
Proof. intros w e Hsum. apply last_nonzero_support, Hsum. Qed.

Lemma toy_keeps_new_result check iters oracle op :
  keeps_new_result (Toy.engine check iters oracle op).
Proof. intros m t r i. reflexivity. Qed.

Lemma toy_one_result_per_text check iters budget op :
  one_result_per_text (Toy.engine check iters (Toy.goal_results budget) op).
Proof.
  intros batch e. simpl. rewrite length_map, length_take. lia.
Qed.

Lemma toy_flat_one_result_per_text check iters op :
  one_result_per_text (Toy.engine check iters Toy.flat_results op).
Proof. intros batch e. simpl. by rewrite length_map. Qed.

Lemma index_in_range_None (pm : PopulationMember) : index_in_range None pm.
Proof. intros i H. discriminate. Qed.

(** ** The mutation operator *)

(** C3, as stated, fails in one point: the candidate that is committed
    need not be the best-scoring one.  Lines 94-98 hold the score
    differences in a binary32 tensor.  The member has score 1/2, the
    candidates ["ab!"] and ["ab?"] have the scores 3/4 and 3/4 + 2^-30,
    which are the same binary32 value; [argmax] takes the first, so ["ab!"]
    is committed although ["ab?"] scores more. *)
Lemma C3_committed_candidate_is_not_the_best :
  let pm := Toy.scored_member "ab" (1 # 2) [1; 1] in
  let r := _perturb Toy.close_engine pm (Toy.goal_result Toy.original) None
             Toy.start in
  exists pm' batch first second,
    outcome r = Return pm'
    /\ events r
       = [CallTransformations (attacked_text pm) 1;
          CallGoalResults batch [first; second] false]
    /\ result pm' = first
    /\ text (attacked_text pm') = "ab!"
    /\ text (result_text second) = "ab?"
    /\ (score first < score second)%Q
    /\ to_float32 (score first) = to_float32 (score second)
    /\ argmax (diff_scores [first; second] (score (result pm))) = 0.
Proof.
  eexists _, _, _, _. split; [vm_compute; reflexivity|].
  split; [vm_compute; reflexivity|].
  repeat split; vm_compute; reflexivity.
Qed.

(** C3, amended.  With collaborators that keep their contracts, [_perturb]
    returns, and what it returns is either the member it was given or a
    member built from a candidate of the last batch whose score is strictly
    greater than the score of the member given: the candidate at the first
    position where the binary32 difference to the member's score is the
    greatest of the batch.  The hook that builds the new member is applied
    at most once, as the last step of the call.  If no candidate that the
    goal function scored during the call beats the member, the member
    itself is returned, so the text is the same. *)
Theorem C3_perturb_non_worsening {E} (ga : GeneticAlgorithm E)
    (pm : PopulationMember) (orig : GoalFunctionResult) (index : option nat)
    (s : State E) :
  keeps_new_result ga ->
  draws_from_support ga ->
  one_result_per_text ga ->
  index_in_range index pm ->
  let r := _perturb ga pm orig index s in
  exists pm',
    outcome r = Return pm'
    /\ (pm' = pm
        \/ ((score (result pm) < score (result pm'))%Q /\ commits_best ga pm r))
    /\ ((forall batch new_results over c,
            CallGoalResults batch new_results over ∈ events r ->
            c ∈ new_results ->
            (score c <= score (result pm))%Q) ->
        pm' = pm /\ text (attacked_text pm') = text (attacked_text pm)).
Proof.
  intros Hhook Hsup Hshape Hindex r.
  assert (Hcases : exists pm', outcome r = Return pm'
            /\ (pm' = pm \/ commits_best ga pm r)).
  { subst r. destruct (perturb_run_of_perturb ga pm orig index s) as [->|[Hpos Hrun]].
    - exists pm. auto.
    - destruct (perturb_run_returns ga pm orig index _ _ _ _ Hsup Hshape Hindex
                  (fun _ => le_n _) Hrun) as [pm' Hret].
      exists pm'. split; [exact Hret|].
      destruct (perturb_run_outcome ga pm orig index _ _ _ _ Hrun)
        as [[e He]|[Hsame|Hbest]]; [congruence|left; congruence|by right]. }
  destruct Hcases as (pm' & Hret & Hcase). exists pm'. split; [exact Hret|].
  split.
  - destruct Hcase as [->|Hbest]; [by left|right]. split; [|exact Hbest].
    destruct Hbest as (idx & batch & res & t & x & pre & i & Hout & _ & _ & _ & Hlt & _).
    rewrite Hret in Hout. injection Hout as ->. by rewrite Hhook.
  - intros Hworse. destruct Hcase as [->|Hbest]; [done|]. exfalso.
    destruct (commits_best_logged ga pm r Hbest) as (batch & res & over & c & Hin & Hc & Hlt).
    specialize (Hworse batch res over c Hin Hc).
    exact (Qlt_not_le _ _ Hlt Hworse).
Qed.

(** The theorem at work: the member ["ab"] of score 2 is replaced by the
    candidate ["ab!"] of score 3. *)
Lemma C3_perturb_non_worsening_witness :
  exists pm',
    outcome (_perturb (Toy.engine false 1 (Toy.goal_results 100) Toy.recombine)
               (Toy.member "ab" [1; 1]) (Toy.goal_result Toy.original) None
               Toy.start) = Return pm'
    /\ text (attacked_text pm') = "ab!"
    /\ Qlt (score (result (Toy.member "ab" [1; 1]))) (score (result pm')).
Proof.
  destruct (C3_perturb_non_worsening
              (Toy.engine false 1 (Toy.goal_results 100) Toy.recombine)
              (Toy.member "ab" [1; 1]) (Toy.goal_result Toy.original) None
              Toy.start
              (toy_keeps_new_result _ _ _ _)
              (toy_draws_from_support _ _ _ _)
              (toy_one_result_per_text _ _ _ _)
              (index_in_range_None _))
    as (pm' & Hret & _ & _).
  exists pm'. split; [exact Hret|].
  vm_compute in Hret. injection Hret as <-. split; reflexivity.
Defined.

(** C7.  The test [if index:] takes the fixed index 0 for "no index": with
    [index = 0] the first pass of the loop draws position 1 from the
    budget-proportional distribution, and the second pass draws position 0
    only because position 1 has been zeroed.  With [index = 1] both passes
    use position 1. *)
Theorem C7_index_zero_is_not_honoured :
  sampled_positions
    (events (_perturb (Toy.engine false 1 Toy.flat_results Toy.recombine)
               (Toy.member "ab" [1; 1]) (Toy.goal_result Toy.original)
               (Some 0) Toy.start)) = [1; 0]
  /\ sampled_positions
       (events (_perturb (Toy.engine false 1 Toy.flat_results Toy.recombine)
                  (Toy.member "ab" [1; 1]) (Toy.goal_result Toy.original)
                  (Some 1) Toy.start)) = [1; 1].
Proof. split; vm_compute; reflexivity. Qed.

(** C8, as stated, fails twice.  A call of [_perturb] that finds no
    improvement at positions 1 and 0 zeroes both in its working copy and
    returns the member it was given; the next call on that member draws the
    same positions again.  And with the fixed index 1, position 1 is zeroed
    after the first pass and still used by the second pass of the same
    call. *)
Lemma C8_zeroing_does_not_persist :
  let ga := Toy.engine false 1 Toy.flat_results Toy.recombine in
  let pm := Toy.member "ab" [1; 1] in
  let orig := Toy.goal_result Toy.original in
  let first := _perturb ga pm orig None Toy.start in
  outcome first = Return pm
  /\ sampled_positions (events first) = [1; 0]
  /\ sampled_positions (events (_perturb ga pm orig None (final first))) = [1; 0]
  /\ sampled_positions (events (_perturb ga pm orig (Some 1) Toy.start)) = [1; 1].
Proof. repeat split; vm_compute; reflexivity. Qed.

(** C8, amended.  In a call of [_perturb] that draws its positions (no
    fixed index, or the index 0), a position whose budget is 0 in the member
    is never drawn, and a position that had a batch scored is not drawn
    again in that call: the call ends with that batch or line 107 zeroes the
    position in the working copy.  The working copy is never handed on: the
    call returns the member it was given or the member that
    [_modify_population_member] builds from the member it was given. *)
Theorem C8_zeroed_position_not_resampled {E} (ga : GeneticAlgorithm E)
    (pm : PopulationMember) (orig : GoalFunctionResult) (index : option nat)
    (s : State E) :
  truthy index = false ->
  draws_from_support ga ->
  let r := _perturb ga pm orig index s in
  (forall i, num_replacements_per_word pm !! i = Some 0 ->
             i ∉ sampled_positions (events r))
  /\ (forall pre c i batch new_results over post,
        events r
        = pre ++ CallTransformations c i
              :: CallGoalResults batch new_results over :: post ->
        i ∉ sampled_positions post)
  /\ (forall pm', outcome r = Return pm' ->
        pm' = pm
        \/ exists new_text new_result idx,
             pm' = _modify_population_member ga pm new_text new_result idx).
Proof.
  intros Hf Hsup r. subst r.
  destruct (perturb_run_of_perturb ga pm orig index s) as [->|[Hpos Hrun]].
  - split; [|split]; simpl.
    + intros i _. apply not_elem_of_nil.
    + intros pre c i batch res over post Hev. by destruct pre.
    + intros pm' [= ->]. by left.
  - split; [|split].
    + exact (perturb_run_skips_zero ga pm orig index _ _ _ _ Hf Hsup Hrun).
    + exact (perturb_run_no_resample ga pm orig index _ _ _ _ Hf Hsup Hrun).
    + intros pm' Hret.
      destruct (perturb_run_outcome ga pm orig index _ _ _ _ Hrun)
        as [[e He]|[Hsame|Hbest]]; [congruence|left; congruence|right].
      destruct Hbest as (idx & batch & res & t & x & pre & i & Hout & _).
      exists t, x, idx. congruence.
Qed.

(** The theorem at work: position 1 is drawn first and zeroed; the rest
    of the call, which draws position 0, does not draw it again. *)
Lemma C8_zeroed_position_not_resampled_witness :
  1 ∉ sampled_positions
        (drop 2
           (events (_perturb (Toy.engine false 1 Toy.flat_results Toy.recombine)
                      (Toy.member "ab" [1; 1]) (Toy.goal_result Toy.original)
                      None Toy.start))).
Proof.
  eapply (proj1 (proj2
    (C8_zeroed_position_not_resampled
       (Toy.engine false 1 Toy.flat_results Toy.recombine)
       (Toy.member "ab" [1; 1]) (Toy.goal_result Toy.original) None Toy.start
       eq_refl (toy_draws_from_support _ _ _ _)))) with (pre := []).
  vm_compute. reflexivity.
Defined.

(** ** The crossover operator *)

(** C5.  [_crossover] makes at most [max_crossover_retries + 1]
    recombinations.  When every one of them fails validation, the loop ends
    with [passed_constraints] false, and then (as whenever line 182 falls
    back) the member returned is the parent that the draw of
    [np.random.uniform()] selects, parent 1 below the threshold 1/2 and
    parent 2 from it on, two halves of [0, 1) of the same length; the goal
    function is not called.  When line 182 does not fall back, the goal
    function is called exactly once, on the child alone, as the last call,
    and its first result is wrapped with the child. *)
Theorem C5_crossover_retries_and_fallback {E} (ga : GeneticAlgorithm E)
    (pm1 pm2 : PopulationMember) (original_text : AttackedText) (s : State E) :
  let r := _crossover ga pm1 pm2 original_text s in
  let r0 := crossover_loop ga pm1 pm2 original_text (max_crossover_retries ga) s in
  exists child budget passed,
    outcome r0 = Return (child, budget, passed)
    /\ count_events is_recombination (events r) <= max_crossover_retries ga + 1
    /\ (count_events is_failed_validation (events r) = max_crossover_retries ga + 1 ->
        falls_back ga passed = true)
    /\ (falls_back ga passed = true ->
        outcome r = Return (coin_parent ga pm1 pm2 (final r0))
        /\ count_events is_oracle_call (events r) = 0)
    /\ (falls_back ga passed = false ->
        count_events is_oracle_call (events r) = 1
        /\ exists new_results over,
             events r = events r0 ++ [CallGoalResults [child] new_results over]
             /\ forall new_result, new_results !! 0 = Some new_result ->
                  outcome r
                  = Return (mkPopulationMember child new_result budget))
    /\ (fallback_threshold == 1 - fallback_threshold)%Q.
Proof.
  intros r r0.
  destruct (crossover_run_facts ga pm1 pm2 original_text _ _ _
              (crossover_loop_run ga pm1 pm2 original_text
                 (max_crossover_retries ga) s))
    as (child & budget & passed & Hout & _ & _ & Horacle & [_ Hrec] & Hfail).
  fold r0 in Hout, Horacle, Hrec, Hfail.
  exists child, budget, passed. split; [exact Hout|].
  pose proof (crossover_after_loop ga pm1 pm2 original_text s _ _ _ Hout) as Hr.
  fold r r0 in Hr.
  destruct (falls_back ga passed) eqn:Hfb; rewrite Hr; cbn [prepend events outcome].
  - rewrite app_nil_r. repeat split; try lia; try done.
  - assert (Hev : events
        (match scored ga [child] (final r0) !! 0 with
         | Some new_result =>
             mkRun (Return (mkPopulationMember child new_result budget))
               (after_scoring ga [child] (final r0)) []
         | None => mkRun (Raise IndexError) (after_scoring ga [child] (final r0)) []
         end) = []) by (by destruct (scored ga [child] (final r0) !! 0)).
    cbn [app]. rewrite Hev, !count_events_app, !count_events_singleton.
    cbn [is_recombination is_failed_validation is_oracle_call].
    repeat split; try lia; try done.
    eexists _, _. split; [reflexivity|].
    intros x Hx. by rewrite Hx.
Qed.

(** The theorem at work: with a tagged parent and constraints that reject
    every child, all three attempts fail validation and a parent stands in,
    with no call of the goal function. *)
Lemma C5_crossover_retries_and_fallback_witness :
  let ga := Toy.engine true 1 (Toy.goal_results 100) Toy.recombine_fresh in
  let pm1 := Toy.tagged_member "ab" [1; 1] in
  let pm2 := Toy.member "cd" [1; 1] in
  let r := _crossover ga pm1 pm2 Toy.original Toy.start in
  count_events is_failed_validation (events r) = 3
  /\ outcome r
     = Return (coin_parent ga pm1 pm2
                 (final (crossover_loop ga pm1 pm2 Toy.original 2 Toy.start)))
  /\ count_events is_oracle_call (events r) = 0.
Proof.
  intros ga pm1 pm2 r.
  destruct (C5_crossover_retries_and_fallback ga pm1 pm2 Toy.original Toy.start)
    as (child & budget & passed & _ & _ & Hfail & Hfb & _).
  split; [vm_compute; reflexivity|].
  apply Hfb, Hfail. vm_compute; reflexivity.
Defined.

(** C6, as stated, fails: with the check enabled, a child whose text is the
    text of parent 2 leaves the retry loop without validation, but it is not
    scored: the goal function is not called, and the member returned is
    parent 1, chosen by the coin. *)
Lemma C6_identical_child_is_not_scored :
  let ga := Toy.engine true 1 (Toy.goal_results 100) Toy.recombine in
  let pm1 := Toy.tagged_member "ab" [1; 1] in
  let pm2 := Toy.member "cd" [1; 1] in
  let r := _crossover ga pm1 pm2 Toy.original Toy.start in
  text (recombined ga pm1 pm2 Toy.start) = text (attacked_text pm2)
  /\ events r = [CallCrossoverOperation]
  /\ count_events is_oracle_call (events r) = 0
  /\ outcome r = Return pm1.
Proof. repeat split; vm_compute; reflexivity. Qed.

(** C6, amended.  With the check disabled, the first child is accepted at
    once: one recombination, no validation, one call of the goal function on
    the child alone, whose first result is wrapped with the child and its
    budget vector as a new member (an empty answer raises [IndexError]).
    With the check enabled, a child whose text is the text of a parent ends
    the loop at its attempt, whichever attempt it is (attempt number [n] is
    reached when the [n] attempts before it were validated and rejected),
    and without validation of that child; but the child is not scored: the
    member returned is the parent that the coin selects, and the goal
    function is not called. *)
Theorem C6_acceptance_without_validation {E} (ga : GeneticAlgorithm E)
    (pm1 pm2 : PopulationMember) (original_text : AttackedText) (s : State E) :
  let r := _crossover ga pm1 pm2 original_text s in
  (post_crossover_check ga = false ->
   let child := recombined ga pm1 pm2 s in
   exists new_results over,
     events r = [CallCrossoverOperation; CallGoalResults [child] new_results over]
     /\ (forall new_result, new_results !! 0 = Some new_result ->
           outcome r
           = Return (mkPopulationMember child new_result
                       (recombined_budget ga pm1 pm2 s)))
     /\ (new_results = [] -> outcome r = Raise IndexError))
  /\ (post_crossover_check ga = true ->
      forall n, n <= max_crossover_retries ga ->
        rejected_attempts ga pm1 pm2 original_text n s ->
        let s' := attempt_state ga pm1 pm2 original_text n s in
        let child := recombined ga pm1 pm2 s' in
        text child = text (attacked_text pm1)
        \/ text child = text (attacked_text pm2) ->
        events r
        = rejected_calls ga pm1 pm2 original_text n s ++ [CallCrossoverOperation]
        /\ count_events is_oracle_call (events r) = 0
        /\ outcome r
           = Return (coin_parent ga pm1 pm2 (after_recombination ga pm1 pm2 s'))).
Proof.
  intros r. split.
  - intros Hcheck child.
    assert (Hskip : skips_validation ga (attacked_text pm1) (attacked_text pm2)
                      child = true).
    { unfold skips_validation. by rewrite Hcheck. }
    apply (crossover_scores_at_once ga pm1 pm2 original_text s false).
    + by apply crossover_loop_skipped.
    + unfold falls_back. by rewrite Hcheck.
  - intros Hcheck n Hn Hrej s' child Hsame.
    destruct (crossover_identical_child_at ga pm1 pm2 original_text n s
                Hcheck Hn Hrej Hsame) as [Hev Hout].
    split; [exact Hev|]. split; [|exact Hout].
    fold r in Hev. rewrite Hev, count_events_app, count_events_singleton.
    cbn [is_oracle_call]. rewrite Nat.add_0_r.
    clear. revert s. induction n as [|n IH]; intros s; [reflexivity|].
    cbn [rejected_calls]. rewrite count_events_app, IH. reflexivity.
Qed.

(** The theorem at work.  With the check disabled the child ["cd"] is
    scored and wrapped.  With the check enabled, a first child ["abcd"] is
    validated and rejected, the second child has the text of parent 2: the
    loop ends without a second validation, the goal function is not called,
    and parent 1 is returned. *)
Lemma C6_acceptance_without_validation_witness :
  (let ga := Toy.engine false 1 (Toy.goal_results 100) Toy.recombine in
   let pm1 := Toy.member "ab" [1; 1] in
   let pm2 := Toy.member "cd" [1; 1] in
   exists new_results over,
     events (_crossover ga pm1 pm2 Toy.original Toy.start)
     = [CallCrossoverOperation;
        CallGoalResults [recombined ga pm1 pm2 Toy.start] new_results over]
     /\ new_results !! 0 = Some (Toy.goal_result (Toy.plain "cd")))
  /\ (let ga := Toy.engine true 1 (Toy.goal_results 100) Toy.recombine_fresh_once in
      let pm1 := Toy.tagged_member "ab" [1; 1] in
      let pm2 := Toy.member "cd" [1; 1] in
      let r := _crossover ga pm1 pm2 Toy.original Toy.start in
      events r
      = [CallCrossoverOperation;
         CallConstraints (recombined ga pm1 pm2 Toy.start) (attacked_text pm1) false;
         CallCrossoverOperation]
      /\ count_events is_oracle_call (events r) = 0
      /\ outcome r = Return pm1).
Proof.
  split.
  - intros ga pm1 pm2.
    destruct (proj1 (C6_acceptance_without_validation ga pm1 pm2 Toy.original
                       Toy.start) eq_refl)
      as (new_results & over & Hev & _).
    exists new_results, over. split; [exact Hev|].
    vm_compute in Hev. injection Hev as <- _. reflexivity.
  - intros ga pm1 pm2 r.
    assert (Hrej : rejected_attempts ga pm1 pm2 Toy.original 1 Toy.start).
    { split; [reflexivity|]. split; [discriminate|]. split; [reflexivity|exact I]. }
    exact (proj2 (C6_acceptance_without_validation ga pm1 pm2 Toy.original
                    Toy.start) eq_refl 1 (le_S _ _ (le_n 1)) Hrej
             (or_intror eq_refl)).
Defined.

(** C10, as stated, fails: neither parent carries a tag, the child carries
    none, the check is enabled, and the child has the text of parent 2.  No
    validation takes place, but the child is not scored: the goal function
    is not called and parent 1 is returned. *)
Lemma C10_untagged_identical_child_is_not_scored :
  let ga := Toy.engine true 1 (Toy.goal_results 100) Toy.recombine in
  let pm1 := Toy.member "ab" [1; 1] in
  let pm2 := Toy.member "cd" [1; 1] in
  let r := _crossover ga pm1 pm2 Toy.original Toy.start in
  last_transformation (attacked_text pm1) = None
  /\ last_transformation (attacked_text pm2) = None
  /\ last_transformation (recombined ga pm1 pm2 Toy.start) = None
  /\ count_events is_constraint_call (events r) = 0
  /\ count_events is_oracle_call (events r) = 0
  /\ outcome r = Return pm1.
Proof. repeat split; vm_compute; reflexivity. Qed.

(** C10, amended.  With the check enabled, parents without a tag and a
    child without a tag, the constraints are never consulted and there is
    one recombination.  If the text of the child differs from the texts of
    both parents, the child counts as having passed on the first attempt: it
    is scored by one call of the goal function and wrapped as a new member.
    If the text of the child is the text of a parent, the child is not
    scored: the parent that the coin selects is returned. *)
Theorem C10_untagged_child_skips_constraints {E} (ga : GeneticAlgorithm E)
    (pm1 pm2 : PopulationMember) (original_text : AttackedText) (s : State E) :
  post_crossover_check ga = true ->
  last_transformation (attacked_text pm1) = None ->
  last_transformation (attacked_text pm2) = None ->
  last_transformation (_crossover_operation ga pm1 pm2 (env s)).1.1 = None ->
  let r := _crossover ga pm1 pm2 original_text s in
  let child := recombined ga pm1 pm2 s in
  count_events is_constraint_call (events r) = 0
  /\ count_events is_recombination (events r) = 1
  /\ (text child <> text (attacked_text pm1) ->
      text child <> text (attacked_text pm2) ->
      exists new_results over,
        events r = [CallCrossoverOperation; CallGoalResults [child] new_results over]
        /\ (forall new_result, new_results !! 0 = Some new_result ->
              outcome r
              = Return (mkPopulationMember child new_result
                          (recombined_budget ga pm1 pm2 s))))
  /\ (text child = text (attacked_text pm1)
      \/ text child = text (attacked_text pm2) ->
      events r = [CallCrossoverOperation]
      /\ outcome r
         = Return (coin_parent ga pm1 pm2 (after_recombination ga pm1 pm2 s))).
Proof.
  intros Hcheck Htag1 Htag2 Htag r child.
  assert (Hnone : last_transformation child = None).
  { unfold child, recombined, crossover_attrs. simpl. by rewrite Htag1, Htag2. }
  assert (Hscored : text child <> text (attacked_text pm1) ->
                    text child <> text (attacked_text pm2) ->
    exists new_results over,
      events r = [CallCrossoverOperation; CallGoalResults [child] new_results over]
      /\ (forall new_result, new_results !! 0 = Some new_result ->
            outcome r
            = Return (mkPopulationMember child new_result
                        (recombined_budget ga pm1 pm2 s)))).
  { intros Hne1 Hne2.
    assert (Hskip : skips_validation ga (attacked_text pm1) (attacked_text pm2)
                      child = false).
    { unfold skips_validation. rewrite Hcheck. simpl.
      apply orb_false_iff. split; apply String.eqb_neq; assumption. }
    destruct (crossover_scores_at_once ga pm1 pm2 original_text s true)
      as (res & over & Hev & Hres & _).
    - by apply crossover_loop_untagged.
    - unfold falls_back. by rewrite Hcheck.
    - exists res, over. auto. }
  assert (Hfallback : text child = text (attacked_text pm1)
                      \/ text child = text (attacked_text pm2) ->
    events r = [CallCrossoverOperation]
    /\ outcome r
       = Return (coin_parent ga pm1 pm2 (after_recombination ga pm1 pm2 s))).
  { intros Hsame.
    by apply crossover_identical_child. }
  assert (Hcounts : count_events is_constraint_call (events r) = 0
                    /\ count_events is_recombination (events r) = 1).
  { destruct (String.eqb (text child) (text (attacked_text pm1))) eqn:H1;
      [|destruct (String.eqb (text child) (text (attacked_text pm2))) eqn:H2].
    - apply String.eqb_eq in H1. destruct (Hfallback (or_introl H1)) as [Hev _].
      rewrite Hev. split; reflexivity.
    - apply String.eqb_eq in H2. destruct (Hfallback (or_intror H2)) as [Hev _].
      rewrite Hev. split; reflexivity.
    - apply String.eqb_neq in H1, H2.
      destruct (Hscored H1 H2) as (res & over & Hev & _).
      rewrite Hev. split; reflexivity. }
  destruct Hcounts as [Hc Hr].
  split; [exact Hc|split; [exact Hr|split; [exact Hscored|exact Hfallback]]].
Qed.

(** The theorem at work: the untagged child ["abcd"] is scored without any
    validation. *)
Lemma C10_untagged_child_skips_constraints_witness :
  let ga := Toy.engine true 1 (Toy.goal_results 100) Toy.recombine_fresh in
  let pm1 := Toy.member "ab" [1; 1] in
  let pm2 := Toy.member "cd" [1; 1] in
  let r := _crossover ga pm1 pm2 Toy.original Toy.start in
  count_events is_constraint_call (events r) = 0
  /\ count_events is_oracle_call (events r) = 1.
Proof.
  intros ga pm1 pm2 r. split.
  - exact (proj1 (C10_untagged_child_skips_constraints ga pm1 pm2 Toy.original
                    Toy.start eq_refl eq_refl eq_refl eq_refl)).
  - vm_compute; reflexivity.
Defined.

(** ** The generation loop *)

(** C4.  In the log of [_perform_search], which holds every call to the
    goal function, the transformation, the constraints and the
    recombination hook, a call of the goal function that reports
    [search_over] is the last entry: no call to any collaborator follows it.
    If the population initialiser already leaves the flag set, the engine
    makes no call at all. *)
Theorem C4_no_call_after_search_over {E} (ga : GeneticAlgorithm E)
    (initial_result : GoalFunctionResult) (s : State E) :
  let r := _perform_search ga initial_result s in
  search_over_is_last (events r)
  /\ (forall pre ev post,
        events r = pre ++ ev :: post ->
        reports_search_over ev = true ->
        post = []
        /\ count_events is_oracle_call post = 0
        /\ count_events is_transformation_call post = 0)
  /\ ((_initialize_population ga initial_result (pop_size ga) (env s)).1.2 = true ->
      events r = []).
Proof.
  intros r.
  assert (Hev : events r
                = events (final_population ga initial_result s))
    by apply perform_search_events.
  rewrite Hev, final_population_unfold. cbv zeta.
  set (init := _initialize_population ga initial_result (pop_size ga) (env s)).
  pose proof (generations_log ga initial_result (length init.1.1) (max_iters ga)
                init.1.1 (score initial_result) (mkState init.2 init.1.2)) as Hlog.
  split; [by eapply log_ok_last|]. split.
  - intros pre ev post Hsplit Hover.
    rewrite (search_over_is_last_split _ (log_ok_last _ _ Hlog) pre ev post Hsplit Hover).
    repeat split; reflexivity.
  - intros Hinit. unfold log_ok in Hlog. cbn [_search_over] in Hlog.
    rewrite Hinit in Hlog |- *. tauto.
Qed.

(** C9.  A pass of the generation loop that hands a next generation to the
    following pass builds it as the elite followed by the children: the
    elite is [population[0]] after the sort, a member of the current
    generation that no member outscores, carried over as it is, and the
    children are what the child-construction loop returned. *)
Theorem C9_elitism {E} (ga : GeneticAlgorithm E)
    (initial_result : GoalFunctionResult) (size : nat)
    (population : list PopulationMember) (current_score : Q) (s : State E)
    (population' : list PopulationMember) (current_score' : Q) :
  outcome (generation ga initial_result size population current_score s)
  = Return (Continue population' current_score') ->
  exists elite children,
    population' = elite :: children
    /\ population' !! 0 = Some elite
    /\ sorted_by_score population !! 0 = Some elite
    /\ elite ∈ population
    /\ (forall m, m ∈ population ->
          (score (result m) <= score (result elite))%Q)
    /\ exists parent1_idx parent2_idx s',
         outcome (construct_children ga (sorted_by_score population)
                    parent1_idx parent2_idx initial_result
                    (seq 0 (size - 1)) [] s')
         = Return children.
Proof.
  unfold generation. rewrite bind_read.
  destruct (_search_over s); [discriminate|].
  unfold getitem. destruct (sorted_by_score population !! 0) as [top|] eqn:Htop;
    [rewrite bind_ret|discriminate].
  destruct (sorted_by_score_top _ _ Htop) as [Hin Hmax].
  destruct (goal_status (result top)); [discriminate| |];
    (destruct (negb _ && _); [discriminate|]);
    rewrite !bind_lift; unfold bind at 1;
    match goal with
    | |- context [construct_children ga ?p ?i1 ?i2 ?r ?l ?c ?st] =>
        destruct (outcome (construct_children ga p i1 i2 r l c st))
          as [children|e] eqn:Hchildren
    end; try discriminate;
    intros [= <- _]; exists top, children;
    (split; [reflexivity|]); (split; [reflexivity|]);
    (split; [reflexivity|]); (split; [exact Hin|]); (split; [exact Hmax|]);
    eauto.
Qed.

(** The theorem at work: the first generation of two copies of ["ab"]
    hands on the elite ["ab"] followed by the child ["ab!"]. *)
Lemma C9_elitism_witness :
  exists elite child,
    outcome (generation (Toy.engine false 1 (Toy.goal_results 100) Toy.recombine)
               (Toy.goal_result Toy.original) 2
               [Toy.member "ab" [1; 1]; Toy.member "ab" [1; 1]]
               (score (Toy.goal_result Toy.original)) Toy.start)
    = Return (Continue [elite; child] (score (Toy.goal_result Toy.original)))
    /\ elite = Toy.member "ab" [1; 1]
    /\ text (attacked_text child) = "ab!".
Proof.
  eexists _, _.
  match goal with
  | |- ?run /\ _ => assert (Hrun : run) by (vm_compute; reflexivity)
  end.
  split; [exact Hrun|].
  destruct (C9_elitism (Toy.engine false 1 (Toy.goal_results 100) Toy.recombine)
              (Toy.goal_result Toy.original) 2
              [Toy.member "ab" [1; 1]; Toy.member "ab" [1; 1]]
              (score (Toy.goal_result Toy.original)) Toy.start _ _ Hrun)
    as (elite & children & Hpop & _ & Hsorted & _).
  split; [|reflexivity].
  vm_compute. reflexivity.
Defined.

(** C2.  When the loop ends because [max_iters] passes were made, line 253
    has put the children behind the elite without sorting, and line 255
    returns the result of the elite: here the result of ["ab"], of score 2,
    while the population holds the child ["ab!"] of score 3. *)
Theorem C2_last_generation_is_not_ranked :
  let ga := Toy.engine false 1 (Toy.goal_results 100) Toy.recombine in
  let initial_result := Toy.goal_result Toy.original in
  exists returned elite best,
    outcome (_perform_search ga initial_result Toy.start) = Return returned
    /\ outcome (final_population ga initial_result Toy.start)
       = Return [elite; best]
    /\ returned = result elite
    /\ score returned = 2%Q
    /\ score (result best) = 3%Q.
Proof.
  eexists _, _, _. split; [vm_compute; reflexivity|].
  split; [vm_compute; reflexivity|].
  repeat split; vm_compute; reflexivity.
Qed.

(** ** The selection distribution *)

Section SelectionFacts.

Local Open Scope R_scope.

Lemma logits_positive (temp : R) (pop_scores : list R) :
  Forall (fun x => 0 < x) (Selection.logits temp pop_scores).
Proof.
  unfold Selection.logits. induction pop_scores as [|x l IH]; simpl;
    constructor; [apply exp_pos|exact IH].
Qed.

Lemma tensor_sum_positive (v : list R) :
  v <> [] -> Forall (fun x => 0 < x) v -> 0 < Selection.tensor_sum v.
Proof.
  intros Hne Hpos. destruct Hpos as [|x v Hx Hv]; [congruence|]. simpl.
  assert (0 <= Selection.tensor_sum v).
  { clear Hne Hx. induction Hv as [|y v Hy Hv IH]; simpl; lra. }
  lra.
Qed.

Lemma select_probs_lookup (temp : R) (pop_scores : list R) (i : nat) (x : R) :
  pop_scores !! i = Some x ->
  Selection.select_probs temp pop_scores !! i
  = Some (exp (- x / temp)
          / Selection.tensor_sum (Selection.logits temp pop_scores)).
Proof.
  intros Hx. unfold Selection.select_probs. cbv zeta.
  assert (Hl : Selection.logits temp pop_scores !! i = Some (exp (- x / temp))).
  { unfold Selection.logits. by rewrite lookup_map, Hx. }
  by rewrite lookup_map, Hl.
Qed.

(** For a positive temperature the probability of line 230 falls as the
    score rises. *)
Lemma select_probs_antitone (temp : R) (pop_scores : list R) (i j : nat)
    (high low : R) :
  0 < temp ->
  pop_scores !! i = Some high ->
  pop_scores !! j = Some low ->
  low < high ->
  exists p_high p_low,
    Selection.select_probs temp pop_scores !! i = Some p_high
    /\ Selection.select_probs temp pop_scores !! j = Some p_low
    /\ p_high < p_low.
Proof.
  intros Htemp Hi Hj Hlt.
  eexists _, _. split; [by apply select_probs_lookup|].
  split; [by apply select_probs_lookup|].
  assert (Hsum : 0 < Selection.tensor_sum (Selection.logits temp pop_scores)).
  { apply tensor_sum_positive; [|apply logits_positive].
    unfold Selection.logits. destruct pop_scores; [discriminate|discriminate]. }
  apply Rmult_lt_compat_r; [by apply Rinv_0_lt_compat|].
  apply exp_increasing. unfold Rdiv.
  apply Rmult_lt_compat_r; [by apply Rinv_0_lt_compat|]. lra.
Qed.

End SelectionFacts.

(** C1.  The distribution of lines 228-230 runs against the score.  In the
    sorted population of the members ["abc"] (score 3, the best) and ["ab"]
    (score 2), for every positive temperature the best member is drawn with
    a smaller probability than the other member, and with a probability
    below 1/2; so its probability cannot tend to 1 as the temperature tends
    to 0. *)
Theorem C1_selection_runs_against_score :
  let population :=
    sorted_by_score [Toy.member "ab" [1; 1]; Toy.member "abc" [1; 1]] in
  map (fun pm => score (result pm)) population = [3%Q; 2%Q]
  /\ forall temp : Q, (0 < temp)%Q ->
       exists p_best p_worst : R,
         Selection.parent_distribution temp population = [p_best; p_worst]
         /\ (p_best < p_worst)%R
         /\ (p_best < 1 / 2)%R.
Proof.
  intros population. split; [reflexivity|].
  intros temp Htemp.
  assert (Ht : (0 < Q2R temp)%R).
  { apply Qlt_Rlt in Htemp. by rewrite RMicromega.Q2R_0 in Htemp. }
  assert (Hscores : (Q2R 2 < Q2R 3)%R) by (by apply Qlt_Rlt).
  destruct (select_probs_antitone (Q2R temp) [Q2R 3; Q2R 2] 0 1 (Q2R 3) (Q2R 2)
              Ht eq_refl eq_refl Hscores)
    as (p_best & p_worst & Hbest & Hworst & Hlt).
  exists p_best, p_worst.
  assert (Hdist : Selection.parent_distribution temp population
                  = [p_best; p_worst]).
  { change (Selection.parent_distribution temp population)
      with (Selection.select_probs (Q2R temp) [Q2R 3; Q2R 2]).
    unfold Selection.select_probs in *. cbn [map Selection.logits] in *.
    cbn in Hbest, Hworst. injection Hbest as <-. injection Hworst as <-.
    reflexivity. }
  split; [exact Hdist|]. split; [exact Hlt|].
  assert (Hone : (p_best + p_worst = 1)%R).
  { unfold Selection.select_probs in Hbest, Hworst.
    cbn in Hbest, Hworst. injection Hbest as <-. injection Hworst as <-.
    pose proof (exp_pos (- Q2R 3 / Q2R temp)).
    pose proof (exp_pos (- Q2R 2 / Q2R temp)).
    field. lra. }
  lra.
Qed.

(** * Further properties of the engine *)

(** ** Counting calls *)

Lemma count_events_cons (p : Event -> bool) (ev : Event) (evs : list Event) :
  count_events p (ev :: evs) = (if p ev then 1 else 0) + count_events p evs.
Proof.
  change (ev :: evs) with ([ev] ++ evs).
  by rewrite count_events_app, count_events_singleton.
Qed.

Lemma count_events_nil (p : Event -> bool) : count_events p [] = 0.
Proof. reflexivity. Qed.

Lemma bind_cases {E A B} (m : M E A) (k : A -> M E B) (s : State E) :
  bind m k s
  = match outcome (m s) with
    | Return a => prepend (events (m s)) (k a (final (m s)))
    | Raise e => mkRun (Raise e) (final (m s)) (events (m s))
    end.
Proof. reflexivity. Qed.

Section PerturbCalls.

Context {E : Type}.
Variable ga : GeneticAlgorithm E.
Variables (pm : PopulationMember) (orig : GoalFunctionResult) (index : option nat).

(** Every pass asks for transformations once and for scores at most once;
    the loop makes at most [n] passes. *)
Lemma perturb_run_calls n v s r :
  perturb_run ga pm orig index n v s r ->
  count_events is_transformation_call (events r) <= n
  /\ count_events is_oracle_call (events r)
     <= count_events is_transformation_call (events r)
  /\ count_events is_constraint_call (events r) = 0
  /\ count_events is_recombination (events r) = 0.
Proof.
  intros Hrun; perturb_run_cases Hrun;
    unfold prepend, pass_calls; cbn [events app];
    rewrite ?count_events_cons, ?count_events_nil;
    cbn [is_transformation_call is_oracle_call is_constraint_call is_recombination];
    lia.
Qed.

(** A run that was started with the flag down and ends with the flag up
    returns the member it was given; the report of the goal function ends
    its log. *)
Lemma perturb_run_search_over n v s r :
  perturb_run ga pm orig index n v s r ->
  _search_over s = false ->
  _search_over (final r) = true ->
  outcome r = Return pm
  /\ exists pre batch new_results,
       events r = pre ++ [CallGoalResults batch new_results true].
Proof.
  intros Hrun; perturb_run_cases Hrun; intros Hdown Hup;
    cbn [final outcome events prepend] in *;
    try congruence;
    try (unfold after_scoring in Hup; cbn [_search_over] in Hup; congruence);
    pose proof (position_chosen_flag ga index _ _ _ _ Hpos) as Hflag1;
    rewrite Hdown in Hflag1.
  - destruct (IH Hflag1 Hup) as (Hout & pre & b & res & Hev).
    split; [exact Hout|]. rewrite Hev.
    by exists (CallTransformations (attacked_text pm) idx :: pre), b, res.
  - split; [reflexivity|].
    by exists [CallTransformations (attacked_text pm) idx], batch, (scored ga batch s2).
  - destruct (IH Hover Hup) as (Hout & pre & b & res & Hev).
    split; [exact Hout|]. rewrite Hev.
    by exists (pass_calls ga pm idx batch s2 false ++ pre), b, res.
Qed.

End PerturbCalls.

(** X1.  A call of [_perturb] asks for transformations at most once per
    non-zero entry of the member's budget vector, asks the goal function for
    scores at most as often as it asks for transformations, and never
    consults the constraints or the recombination hook; when every entry of
    the budget vector is zero it makes no call at all and returns the
    member. *)
Theorem X1_perturb_call_bound {E} (ga : GeneticAlgorithm E)
    (pm : PopulationMember) (orig : GoalFunctionResult) (index : option nat)
    (s : State E) :
  let r := _perturb ga pm orig index s in
  count_events is_transformation_call (events r)
    <= count_nonzero (num_replacements_per_word pm)
  /\ count_events is_oracle_call (events r)
     <= count_events is_transformation_call (events r)
  /\ count_events is_constraint_call (events r) = 0
  /\ count_events is_recombination (events r) = 0
  /\ (Forall (fun budget => budget = 0) (num_replacements_per_word pm) ->
      r = mkRun (Return pm) s []).
Proof.
  intros r. subst r.
  assert (Hzero : Forall (fun budget => budget = 0) (num_replacements_per_word pm) ->
                  count_nonzero (num_replacements_per_word pm) = 0).
  { induction 1 as [|x v Hx Hv IH]; [reflexivity|].
    rewrite count_nonzero_cons, IH. by destruct (decide (x = 0)). }
  destruct (perturb_run_of_perturb ga pm orig index s) as [Hret|[Hpos Hrun]].
  - rewrite Hret. cbn [events]. rewrite !count_events_nil.
    repeat split; try lia; done.
  - destruct (perturb_run_calls ga pm orig index _ _ _ _ Hrun) as (? & ? & ? & ?).
    repeat split; try assumption.
    intros Hall. apply Hzero in Hall. lia.
Qed.

(** X2.  A fixed index other than 0 is the position of every pass of
    [_perturb]: every transformation call of the run is made at that
    index. *)
Theorem X2_perturb_fixed_index_is_used {E} (ga : GeneticAlgorithm E)
    (pm : PopulationMember) (orig : GoalFunctionResult) (i : nat) (s : State E) :
  Forall (fun idx => idx = S i)
    (sampled_positions (events (_perturb ga pm orig (Some (S i)) s))).
Proof.
  destruct (perturb_run_of_perturb ga pm orig (Some (S i)) s) as [->|[_ Hrun]].
  - constructor.
  - by eapply perturb_run_fixed_index.
Qed.

(** X3.  When the goal function reports [search_over] during a call of
    [_perturb] (the flag is down at the start and up at the end), the call
    returns the member it was given, whatever the scores of the batch, and
    the reporting call is the last entry of its log. *)
Theorem X3_perturb_search_over_discards_batch {E} (ga : GeneticAlgorithm E)
    (pm : PopulationMember) (orig : GoalFunctionResult) (index : option nat)
    (s : State E) :
  _search_over s = false ->
  _search_over (final (_perturb ga pm orig index s)) = true ->
  outcome (_perturb ga pm orig index s) = Return pm
  /\ exists pre batch new_results,
       events (_perturb ga pm orig index s)
       = pre ++ [CallGoalResults batch new_results true].
Proof.
  intros Hdown Hup.
  destruct (perturb_run_of_perturb ga pm orig index s) as [Hret|[_ Hrun]].
  - rewrite Hret in Hup. simpl in Hup. congruence.
  - by eapply perturb_run_search_over.
Qed.

(** The theorem at work: with a budget of one query the candidate ["ab!"]
    of score 3 is scored and then dropped; the member ["ab"] of score 2 is
    returned. *)
Lemma X3_perturb_search_over_discards_batch_witness :
  outcome (_perturb (Toy.engine false 1 (Toy.goal_results 1) Toy.recombine)
             (Toy.member "ab" [1; 1]) (Toy.goal_result Toy.original) None
             Toy.start)
  = Return (Toy.member "ab" [1; 1]).
Proof.
  exact (proj1 (X3_perturb_search_over_discards_batch
                  (Toy.engine false 1 (Toy.goal_results 1) Toy.recombine)
                  (Toy.member "ab" [1; 1]) (Toy.goal_result Toy.original) None
                  Toy.start eq_refl eq_refl)).
Defined.

(** ** More on the crossover operator *)

Section CrossoverCalls.

Context {E : Type}.
Variable ga : GeneticAlgorithm E.
Variables (pm1 pm2 : PopulationMember) (original_text : AttackedText).

(** The retry loop never asks for transformations, validates at most once
    per recombination, does not validate at all when the check is disabled,
    and returns the child and the budget vector of its last attempt. *)
Lemma crossover_run_calls k s r :
  crossover_run ga pm1 pm2 original_text k s r ->
  count_events is_transformation_call (events r) = 0
  /\ count_events is_constraint_call (events r)
     <= count_events is_recombination (events r)
  /\ (post_crossover_check ga = false ->
      count_events is_constraint_call (events r) = 0)
  /\ exists s' passed,
       outcome r
       = Return (recombined ga pm1 pm2 s', recombined_budget ga pm1 pm2 s', passed).
Proof.
  induction 1 as [k s Hskip|k s Hskip Htag|k s Hskip Htag Hv|s Hskip Htag Hv
                 |k s r Hskip Htag Hv Hrun IH];
    unfold prepend, attempt_calls; cbn [events outcome app];
    rewrite ?count_events_cons, ?count_events_nil;
    cbn [is_transformation_call is_constraint_call is_recombination];
    try (apply skips_validation_false in Hskip as [Hcheck _]).
  - repeat split; try lia. eauto.
  - repeat split; try lia. eauto.
  - repeat split; try lia; [congruence|eauto].
  - repeat split; try lia; [congruence|eauto].
  - destruct IH as (Ht & Hc & _ & Hlast).
    repeat split; try lia; [congruence|exact Hlast].
Qed.

End CrossoverCalls.

(** X4.  [_crossover] never asks for transformations, consults the
    constraints at most once per recombination and not at all when
    [post_crossover_check] is disabled.  It changes [self._search_over]
    only through its one call of the goal function: without such a call the
    flag is as before, and after it the flag is what the call reported. *)
Theorem X4_crossover_calls_and_flag {E} (ga : GeneticAlgorithm E)
    (pm1 pm2 : PopulationMember) (original_text : AttackedText) (s : State E) :
  let r := _crossover ga pm1 pm2 original_text s in
  count_events is_transformation_call (events r) = 0
  /\ count_events is_constraint_call (events r)
     <= count_events is_recombination (events r)
  /\ (post_crossover_check ga = false ->
      count_events is_constraint_call (events r) = 0)
  /\ (count_events is_oracle_call (events r) = 0 ->
      _search_over (final r) = _search_over s)
  /\ (forall pre batch new_results over,
        events r = pre ++ [CallGoalResults batch new_results over] ->
        _search_over (final r) = over).
Proof.
  intros r.
  pose proof (crossover_loop_run ga pm1 pm2 original_text
                (max_crossover_retries ga) s) as Hrun.
  destruct (crossover_run_facts ga pm1 pm2 original_text _ _ _ Hrun)
    as (child & budget & passed & Hout & Hkeep & _ & Horacle & _ & _).
  destruct (crossover_run_calls ga pm1 pm2 original_text _ _ _ Hrun)
    as (Ht & Hc & Hoff & _).
  pose proof (crossover_after_loop ga pm1 pm2 original_text s _ _ _ Hout) as Hr.
  set (r0 := crossover_loop ga pm1 pm2 original_text (max_crossover_retries ga) s)
    in *.
  fold r in Hr. rewrite Hr. clear Hr.
  destruct (falls_back ga passed); cbn [prepend events final].
  - rewrite app_nil_r. cbn [_search_over].
    split; [exact Ht|]. split; [exact Hc|]. split; [exact Hoff|].
    split; [by intros _|].
    intros pre batch res over Hev. rewrite Hev, count_events_app in Horacle.
    rewrite count_events_singleton in Horacle. simpl in Horacle. lia.
  - assert (Htail : forall x : Run E PopulationMember,
              x = match scored ga [child] (final r0) !! 0 with
                  | Some new_result =>
                      mkRun (Return (mkPopulationMember child new_result budget))
                        (after_scoring ga [child] (final r0)) []
                  | None =>
                      mkRun (Raise IndexError) (after_scoring ga [child] (final r0)) []
                  end ->
              events x = []
              /\ _search_over (final x) = reported_over ga [child] (final r0)).
    { intros x ->. by destruct (scored ga [child] (final r0) !! 0). }
    destruct (Htail _ eq_refl) as [-> ->]. cbn [app].
    rewrite !count_events_app, !count_events_singleton.
    cbn [is_transformation_call is_constraint_call is_recombination is_oracle_call].
    split; [lia|]. split; [lia|]. split; [intros Hcheck; specialize (Hoff Hcheck); lia|].
    split; [lia|].
    intros pre batch res over Hev.
    apply app_inj_tail in Hev as [_ Hev]. by injection Hev.
Qed.

(** X5.  A member that [_crossover] returns after scoring it (the run
    holds a call of the goal function) is made of the text and the budget
    vector of one and the same recombination.  The positions it records as
    modified are positions that one of the parents records as modified, and
    it carries the transformation tag of parent 1 if parent 1 has one,
    otherwise the tag of parent 2 if parent 2 has one. *)
Theorem X5_accepted_child_attributes {E} (ga : GeneticAlgorithm E)
    (pm1 pm2 : PopulationMember) (original_text : AttackedText) (s : State E)
    (child : PopulationMember) :
  outcome (_crossover ga pm1 pm2 original_text s) = Return child ->
  count_events is_oracle_call (events (_crossover ga pm1 pm2 original_text s)) = 1 ->
  (exists s',
     attacked_text child = recombined ga pm1 pm2 s'
     /\ num_replacements_per_word child = recombined_budget ga pm1 pm2 s')
  /\ modified_indices (attacked_text child)
     ⊆ modified_indices (attacked_text pm1) ∪ modified_indices (attacked_text pm2)
  /\ (forall t, last_transformation (attacked_text pm1) = Some t ->
        last_transformation (attacked_text child) = Some t)
  /\ (last_transformation (attacked_text pm1) = None ->
      forall t, last_transformation (attacked_text pm2) = Some t ->
        last_transformation (attacked_text child) = Some t).
Proof.
  intros Hret Hcount.
  pose proof (crossover_loop_run ga pm1 pm2 original_text
                (max_crossover_retries ga) s) as Hrun.
  destruct (crossover_run_facts ga pm1 pm2 original_text _ _ _ Hrun)
    as (text' & budget & passed & Hout & _ & _ & Horacle & _ & _).
  destruct (crossover_run_calls ga pm1 pm2 original_text _ _ _ Hrun)
    as (_ & _ & _ & s' & passed' & Hout').
  rewrite Hout in Hout'. injection Hout' as -> -> _.
  rewrite (crossover_after_loop ga pm1 pm2 original_text s _ _ _ Hout)
    in Hret, Hcount.
  destruct (falls_back ga passed); cbn [prepend events outcome] in Hret, Hcount.
  - rewrite app_nil_r in Hcount. lia.
  - destruct (scored ga [recombined ga pm1 pm2 s'] _ !! 0) as [new_result|];
      [|discriminate].
    injection Hret as <-. cbn [attacked_text num_replacements_per_word].
    split; [by exists s'|].
    unfold recombined, crossover_attrs; cbn [modified_indices last_transformation].
    split.
    { intros i. rewrite !elem_of_union, elem_of_difference, elem_of_intersection.
      tauto. }
    split.
    + by intros t ->.
    + intros -> t ->. reflexivity.
Qed.

(** The theorem at work: the child ["abcd"] of the untagged parents ["ab"]
    and ["cd"] is scored and returned. *)
Lemma X5_accepted_child_attributes_witness :
  let ga := Toy.engine true 1 (Toy.goal_results 100) Toy.recombine_fresh in
  let pm1 := Toy.member "ab" [1; 1] in
  let pm2 := Toy.member "cd" [1; 1] in
  exists child,
    outcome (_crossover ga pm1 pm2 Toy.original Toy.start) = Return child
    /\ modified_indices (attacked_text child)
       ⊆ modified_indices (attacked_text pm1) ∪ modified_indices (attacked_text pm2).
Proof.
  intros ga pm1 pm2. eexists. split; [reflexivity|].
  exact (proj1 (proj2 (X5_accepted_child_attributes ga pm1 pm2 Toy.original
                         Toy.start _ eq_refl eq_refl))).
Defined.

(** ** More on the generation loop *)

Section GenerationFacts.

Context {E : Type}.
Variable ga : GeneticAlgorithm E.

(** The child-construction loop only appends to its list, one child per
    index at most, and exactly one per index when it ends with the flag
    down. *)
Lemma construct_children_length population parent1_idx parent2_idx initial_result
    (idxs : list nat) :
  forall children s r result_children,
    r = construct_children ga population parent1_idx parent2_idx
          initial_result idxs children s ->
    outcome r = Return result_children ->
    length result_children <= length children + length idxs
    /\ (_search_over (final r) = false ->
        length result_children = length children + length idxs).
Proof.
  induction idxs as [|idx idxs IH]; intros children s r cs Hr;
    cbn [construct_children] in Hr.
  { subst r. intros [= <-]. simpl. split; [lia|]. intros _. lia. }
  unfold getitem at 1 in Hr. destruct (parent1_idx !! idx) as [p1|];
    [rewrite bind_ret in Hr|by subst r].
  unfold getitem at 1 in Hr. destruct (population !! p1) as [parent1|];
    [rewrite bind_ret in Hr|by subst r].
  unfold getitem at 1 in Hr. destruct (parent2_idx !! idx) as [p2|];
    [rewrite bind_ret in Hr|by subst r].
  unfold getitem at 1 in Hr. destruct (population !! p2) as [parent2|];
    [rewrite bind_ret in Hr|by subst r].
  rewrite bind_cases in Hr.
  destruct (outcome (_crossover ga parent1 parent2 (result_text initial_result) s))
    as [child|e]; [|by subst r].
  revert Hr.
  generalize (events (_crossover ga parent1 parent2 (result_text initial_result) s)).
  generalize (final (_crossover ga parent1 parent2 (result_text initial_result) s)).
  intros s1 evs1 Hr. rewrite bind_read in Hr.
  destruct (_search_over s1) eqn:Hover1.
  { subst r. cbn [prepend ret outcome final]. intros [= <-]. simpl.
    split; [lia|]. congruence. }
  rewrite bind_cases in Hr.
  destruct (outcome (_perturb ga child initial_result None s1)) as [child'|e];
    [|by subst r].
  revert Hr.
  generalize (events (_perturb ga child initial_result None s1)).
  generalize (final (_perturb ga child initial_result None s1)).
  intros s2 evs2 Hr. rewrite bind_read in Hr.
  destruct (_search_over s2) eqn:Hover2.
  { subst r. cbn [prepend ret outcome final]. intros [= <-].
    rewrite length_app. simpl. split; [lia|]. congruence. }
  subst r. cbn [prepend outcome final]. intros Hout.
  destruct (IH _ _ _ _ eq_refl Hout) as [Hle Heq].
  rewrite length_app in Hle, Heq. simpl in *. split; [lia|].
  intros Hdown. specialize (Heq Hdown). lia.
Qed.

(** What a pass that hands on a next generation has done. *)
Lemma generation_continue_inv initial_result size population current_score
    (s : State E) population' current_score' :
  outcome (generation ga initial_result size population current_score s)
  = Return (Continue population' current_score') ->
  exists top children parent1_idx parent2_idx s0,
    sorted_by_score population !! 0 = Some top
    /\ population' = top :: children
    /\ outcome (construct_children ga (sorted_by_score population) parent1_idx
                  parent2_idx initial_result (seq 0 (size - 1)) [] s0)
       = Return children
    /\ final (generation ga initial_result size population current_score s)
       = final (construct_children ga (sorted_by_score population) parent1_idx
                  parent2_idx initial_result (seq 0 (size - 1)) [] s0).
Proof.
  unfold generation. rewrite bind_read.
  destruct (_search_over s); [discriminate|].
  unfold getitem. destruct (sorted_by_score population !! 0) as [top|] eqn:Htop;
    [rewrite bind_ret|discriminate].
  destruct (goal_status (result top)); [discriminate| |];
    (destruct (negb _ && _); [discriminate|]);
    rewrite !bind_lift, bind_cases;
    match goal with
    | |- context [construct_children ga ?p ?i1 ?i2 ?r ?l ?c ?st] =>
        destruct (outcome (construct_children ga p i1 i2 r l c st))
          as [children|e] eqn:Hchildren;
        [|discriminate];
        intros [= <- _]; exists top, children, i1, i2, st
    end;
    repeat split; assumption.
Qed.

Lemma insert_by_score_permutation (x : PopulationMember) (l : list PopulationMember) :
  insert_by_score x l ≡ₚ x :: l.
Proof.
  induction l as [|y l IH]; simpl; [done|].
  destruct (Qltb (score (result x)) (score (result y))); [|done].
  rewrite IH. apply Permutation_swap.
Qed.

Lemma sorted_by_score_permutation (l : list PopulationMember) :
  sorted_by_score l ≡ₚ l.
Proof.
  induction l as [|x l IH]; simpl; [done|].
  by rewrite insert_by_score_permutation, IH.
Qed.

Lemma insert_by_score_sorted (x : PopulationMember) (l : list PopulationMember) :
  StronglySorted by_descending_score l ->
  StronglySorted by_descending_score (insert_by_score x l).
Proof.
  induction 1 as [|y l Hsorted IH Hall]; simpl.
  - repeat constructor.
  - destruct (Qltb (score (result x)) (score (result y))) eqn:Hxy.
    + apply Qltb_lt in Hxy. constructor; [exact IH|].
      rewrite insert_by_score_permutation. constructor; [|exact Hall].
      by apply Qlt_le_weak.
    + apply Qltb_ge in Hxy. constructor; [by constructor|].
      constructor; [exact Hxy|].
      eapply Forall_impl; [exact Hall|].
      intros z Hz. unfold by_descending_score in *. by eapply Qle_trans.
Qed.

Lemma sorted_by_score_sorted (l : list PopulationMember) :
  StronglySorted by_descending_score (sorted_by_score l).
Proof.
  induction l as [|x l IH]; simpl; [constructor|].
  by apply insert_by_score_sorted.
Qed.

(** After at least one pass, the head of the population that the loop
    leaves is outscored by no member of the population it started from. *)
Lemma generations_best initial_result size (iters : nat) :
  forall population current_score s final_pop best,
    outcome (generations ga initial_result size (S iters) population
               current_score s) = Return final_pop ->
    final_pop !! 0 = Some best ->
    forall m, m ∈ population -> (score (result m) <= score (result best))%Q.
Proof.
  induction iters as [|iters IH];
    intros population current_score s final_pop best;
    cbn [generations]; rewrite bind_cases;
    destruct (outcome (generation ga initial_result size population
                         current_score s)) as [[sorted|next current_score']|e]
      eqn:Hstep; try discriminate; cbn [prepend outcome].
  - intros [= <-] Hbest.
    destruct (generation_break_sorted ga _ _ _ _ _ _ Hstep) as [-> _].
    by apply sorted_by_score_top.
  - intros [= <-] Hbest.
    destruct (generation_continue_inv _ _ _ _ _ _ _ Hstep)
      as (top & children & i1 & i2 & s0 & Htop & -> & _).
    injection Hbest as <-. by apply sorted_by_score_top.
  - intros [= <-] Hbest.
    destruct (generation_break_sorted ga _ _ _ _ _ _ Hstep) as [-> _].
    by apply sorted_by_score_top.
  - intros Hout Hbest m Hm.
    destruct (generation_continue_inv _ _ _ _ _ _ _ Hstep)
      as (top & children & i1 & i2 & s0 & Htop & -> & _).
    destruct (sorted_by_score_top _ _ Htop) as [_ Hmax].
    eapply Qle_trans; [apply Hmax, Hm|].
    eapply (IH _ _ _ _ _ Hout Hbest). apply list_elem_of_here.
Qed.

(** Without members the loop makes no call; it ends with the empty
    population or with [IndexError]. *)
Lemma generations_nil initial_result size (iters : nat) :
  forall current_score s,
    events (generations ga initial_result size iters [] current_score s) = []
    /\ (outcome (generations ga initial_result size iters [] current_score s)
        = Return []
        \/ outcome (generations ga initial_result size iters [] current_score s)
           = Raise IndexError).
Proof.
  destruct iters as [|iters]; intros current_score s; cbn [generations];
    [by auto|].
  assert (Hstep : generation ga initial_result size [] current_score s
                  = if _search_over s then mkRun (Return (Break [])) s []
                    else mkRun (Raise IndexError) s []).
  { unfold generation. rewrite bind_read. by destruct (_search_over s). }
  rewrite bind_cases, Hstep. destruct (_search_over s); cbn; auto.
Qed.

End GenerationFacts.

(** X6.  A pass of the generation loop that hands on a next generation,
    run as [_perform_search] runs it ([pop_size] is the length of the
    population), never hands on more members than it was given; if it ends
    with [self._search_over] down, it hands on exactly as many. *)
Theorem X6_generation_keeps_size {E} (ga : GeneticAlgorithm E)
    (initial_result : GoalFunctionResult) (population : list PopulationMember)
    (current_score : Q) (s : State E)
    (population' : list PopulationMember) (current_score' : Q) :
  outcome (generation ga initial_result (length population) population
             current_score s)
  = Return (Continue population' current_score') ->
  length population' <= length population
  /\ (_search_over
        (final (generation ga initial_result (length population) population
                  current_score s)) = false ->
      length population' = length population).
Proof.
  intros Hstep.
  destruct (generation_continue_inv ga _ _ _ _ _ _ _ Hstep)
    as (top & children & i1 & i2 & s0 & Htop & -> & Hchildren & Hfinal).
  destruct (construct_children_length ga _ _ _ _ _ _ _ _ _ eq_refl Hchildren)
    as [Hle Heq].
  rewrite length_seq in Hle, Heq. simpl in Hle, Heq.
  assert (Hpos : 0 < length population).
  { apply lookup_lt_Some in Htop.
    by rewrite (Permutation_length (sorted_by_score_permutation population))
      in Htop. }
  split; [simpl; lia|]. rewrite Hfinal. intros Hdown.
  specialize (Heq Hdown). simpl. lia.
Qed.

(** The theorem at work: two members in, two members out. *)
Lemma X6_generation_keeps_size_witness :
  exists population' current_score',
    outcome (generation (Toy.engine false 1 (Toy.goal_results 100) Toy.recombine)
               (Toy.goal_result Toy.original) 2
               [Toy.member "ab" [1; 1]; Toy.member "ab" [1; 1]]
               (score (Toy.goal_result Toy.original)) Toy.start)
    = Return (Continue population' current_score')
    /\ length population' = 2.
Proof.
  eexists _, _.
  match goal with
  | |- ?run /\ _ => assert (Hrun : run) by (vm_compute; reflexivity)
  end.
  split; [exact Hrun|].
  refine (proj2 (X6_generation_keeps_size
                   (Toy.engine false 1 (Toy.goal_results 100) Toy.recombine)
                   (Toy.goal_result Toy.original)
                   [Toy.member "ab" [1; 1]; Toy.member "ab" [1; 1]]
                   (score (Toy.goal_result Toy.original)) Toy.start _ _ Hrun)
                _).
  vm_compute. reflexivity.
Defined.

(** X7.  A pass of the generation loop that leaves the loop by [break]
    leaves the population with the same members, in descending order of
    score, so [population[0]] on line 255 is a best member. *)
Theorem X7_break_leaves_population_sorted {E} (ga : GeneticAlgorithm E)
    (initial_result : GoalFunctionResult) (size : nat)
    (population : list PopulationMember) (current_score : Q) (s : State E)
    (population' : list PopulationMember) :
  outcome (generation ga initial_result size population current_score s)
  = Return (Break population') ->
  population' ≡ₚ population
  /\ StronglySorted by_descending_score population'
  /\ forall best, population' !! 0 = Some best ->
       forall m, m ∈ population ->
         (score (result m) <= score (result best))%Q.
Proof.
  intros Hstep.
  destruct (generation_break_sorted ga _ _ _ _ _ _ Hstep) as [-> _].
  split; [apply sorted_by_score_permutation|].
  split; [apply sorted_by_score_sorted|].
  intros best Hbest. by apply sorted_by_score_top.
Qed.

(** The theorem at work: a pass entered with the flag up breaks at once and
    leaves ["abc"] (score 3) ahead of ["ab"] (score 2). *)
Lemma X7_break_leaves_population_sorted_witness :
  StronglySorted by_descending_score
    [Toy.member "abc" [1; 1]; Toy.member "ab" [1; 1]].
Proof.
  exact (proj1 (proj2
    (X7_break_leaves_population_sorted
       (Toy.engine false 1 (Toy.goal_results 100) Toy.recombine)
       (Toy.goal_result Toy.original) 2
       [Toy.member "ab" [1; 1]; Toy.member "abc" [1; 1]]
       (score (Toy.goal_result Toy.original)) (mkState 0 true)
       [Toy.member "abc" [1; 1]; Toy.member "ab" [1; 1]] eq_refl))).
Defined.

(** X8.  With [max_iters] at least 1, the result that [_perform_search]
    returns has a score that no member of the initial population exceeds:
    the search never returns a result worse than where it started. *)
Theorem X8_search_never_regresses {E} (ga : GeneticAlgorithm E)
    (initial_result : GoalFunctionResult) (s : State E)
    (returned : GoalFunctionResult) :
  1 <= max_iters ga ->
  outcome (_perform_search ga initial_result s) = Return returned ->
  forall m,
    m ∈ (_initialize_population ga initial_result (pop_size ga) (env s)).1.1 ->
    (score (result m) <= score returned)%Q.
Proof.
  intros Hiters Hret m Hm.
  unfold _perform_search in Hret. rewrite bind_cases in Hret.
  destruct (outcome (final_population ga initial_result s))
    as [final_pop|e] eqn:Hfinal; [|discriminate].
  cbn [prepend outcome] in Hret. unfold getitem in Hret.
  destruct (final_pop !! 0) as [best|] eqn:Hbest;
    [rewrite bind_ret in Hret|discriminate].
  injection Hret as <-.
  rewrite final_population_unfold in Hfinal. cbv zeta in Hfinal.
  destruct (max_iters ga) as [|iters]; [lia|].
  by eapply (generations_best ga _ _ _ _ _ _ _ _ Hfinal Hbest).
Qed.

(** The theorem at work: the search that starts from ["ab"] returns a
    result that scores at least as much as ["ab"]. *)
Lemma X8_search_never_regresses_witness :
  exists returned,
    outcome (_perform_search
               (Toy.engine false 1 (Toy.goal_results 100) Toy.recombine)
               (Toy.goal_result Toy.original) Toy.start) = Return returned
    /\ Qle (score (Toy.goal_result Toy.original)) (score returned).
Proof.
  eexists.
  match goal with
  | |- ?run /\ _ => assert (Hrun : run) by (vm_compute; reflexivity)
  end.
  split; [exact Hrun|].
  apply (X8_search_never_regresses
           (Toy.engine false 1 (Toy.goal_results 100) Toy.recombine)
           (Toy.goal_result Toy.original) Toy.start _ (le_n 1) Hrun
           (mkPopulationMember (result_text (Toy.goal_result Toy.original))
              (Toy.goal_result Toy.original) [1; 1])).
  apply list_elem_of_here.
Defined.

(** X9.  When [_initialize_population] returns an empty population,
    [_perform_search] raises [IndexError], whatever [max_iters] is, and
    makes no call to any collaborator. *)
Theorem X9_empty_population_raises {E} (ga : GeneticAlgorithm E)
    (initial_result : GoalFunctionResult) (s : State E) :
  (_initialize_population ga initial_result (pop_size ga) (env s)).1.1 = [] ->
  outcome (_perform_search ga initial_result s) = Raise IndexError
  /\ events (_perform_search ga initial_result s) = [].
Proof.
  intros Hempty. rewrite perform_search_events.
  unfold _perform_search. rewrite bind_cases, final_population_unfold.
  cbv zeta. rewrite Hempty.
  destruct (generations_nil ga initial_result (length (@nil PopulationMember))
              (max_iters ga) (score initial_result)
              (mkState
                 (_initialize_population ga initial_result (pop_size ga) (env s)).2
                 (_initialize_population ga initial_result (pop_size ga) (env s)).1.2))
    as [Hev [Hout|Hout]]; rewrite Hout; split; try exact Hev; reflexivity.
Qed.

(** The theorem at work. *)
Lemma X9_empty_population_raises_witness :
  outcome (_perform_search
             (without_population
                (Toy.engine false 1 (Toy.goal_results 100) Toy.recombine))
             (Toy.goal_result Toy.original) Toy.start) = Raise IndexError.
Proof.
  exact (proj1 (X9_empty_population_raises
                  (without_population
                     (Toy.engine false 1 (Toy.goal_results 100) Toy.recombine))
                  (Toy.goal_result Toy.original) Toy.start eq_refl)).
Defined.

(** * The constraint [InstructionModification] *)

Section InstructionModificationFacts.
Import Stdlib.Strings.Ascii.
Import InstructionModification.

Lemma word_index_loop_after (rest : string) :
  ∀ index w a sc ec,
    sc < index → index ≤ ec → ec < index + String.length rest →
    word_index_loop (Z.of_nat sc) (Z.of_nat ec) rest index w (Some a)
    = Ok (a, w + spaces_upto (S (ec - index)) rest).
Proof.
  induction rest as [|c rest IH]; intros index w a sc ec Hsc Hle Hlt.
  - simpl in Hlt. lia.
  - cbn [word_index_loop String.length] in *.
    destruct (Z.eqb_spec (Z.of_nat index) (Z.of_nat sc)) as [Heq|_]; [lia|].
    destruct (Z.eqb_spec (Z.of_nat index) (Z.of_nat ec)) as [Heq|Hne].
    + assert (ec = index) as -> by lia.
      replace (index - index) with 0 by lia. cbn [spaces_upto].
      destruct (Ascii.eqb c " "); do 2 f_equal; lia.
    + rewrite (IH (S index) _ a sc ec) by lia.
      replace (ec - index) with (S (ec - S index)) by lia.
      cbn [spaces_upto].
      destruct (Ascii.eqb c " "); do 2 f_equal; lia.
Qed.

Lemma word_index_loop_before (rest : string) :
  ∀ index w st sc ec,
    index ≤ sc → sc ≤ ec → ec < index + String.length rest →
    word_index_loop (Z.of_nat sc) (Z.of_nat ec) rest index w st
    = Ok (w + spaces_upto (S (sc - index)) rest,
          w + spaces_upto (S (ec - index)) rest).
Proof.
  induction rest as [|c rest IH]; intros index w st sc ec Hsc Hle Hlt.
  - simpl in Hlt. lia.
  - cbn [word_index_loop String.length] in *.
    destruct (Z.eqb_spec (Z.of_nat index) (Z.of_nat sc)) as [Heq|Hne].
    + assert (sc = index) as -> by lia.
      replace (index - index) with 0 by lia.
      destruct (Z.eqb_spec (Z.of_nat index) (Z.of_nat ec)) as [Heq'|Hne'].
      * assert (ec = index) as -> by lia.
        replace (index - index) with 0 by lia. cbn [spaces_upto].
        destruct (Ascii.eqb c " "); do 2 f_equal; lia.
      * rewrite (word_index_loop_after rest (S index) _ _ index ec) by lia.
        replace (ec - index) with (S (ec - S index)) by lia.
        cbn [spaces_upto].
        destruct (Ascii.eqb c " "); do 2 f_equal; lia.
    + destruct (Z.eqb_spec (Z.of_nat index) (Z.of_nat ec)) as [Heq'|Hne'];
        [lia|].
      rewrite (IH (S index) _ st sc ec) by lia.
      replace (sc - index) with (S (sc - S index)) by lia.
      replace (ec - index) with (S (ec - S index)) by lia.
      cbn [spaces_upto].
      destruct (Ascii.eqb c " "); do 2 f_equal; lia.
Qed.

Lemma word_index_loop_out (rest : string) :
  ∀ index w st (sc ec : Z),
    (ec < Z.of_nat index ∨ Z.of_nat (index + String.length rest) ≤ ec)%Z →
    word_index_loop sc ec rest index w st = Raised UnboundLocalError.
Proof.
  induction rest as [|c rest IH]; intros index w st sc ec Hout; [done|].
  cbn [word_index_loop String.length] in *.
  destruct (Z.eqb_spec (Z.of_nat index) ec) as [Heq|Hne]; [lia|].
  apply IH. lia.
Qed.

Lemma word_index_loop_unset (rest : string) :
  ∀ index w (sc ec : Z),
    (sc < Z.of_nat index)%Z →
    word_index_loop sc ec rest index w None = Raised UnboundLocalError.
Proof.
  induction rest as [|c rest IH]; intros index w sc ec Hsc; [done|].
  cbn [word_index_loop].
  destruct (Z.eqb_spec (Z.of_nat index) sc) as [Heq|Hne]; [lia|].
  destruct (Z.of_nat index =? ec)%Z; [done|].
  apply IH. lia.
Qed.

Lemma word_index_range_spec (main_string to_search_string : string) :
  _get_word_index_range main_string to_search_string
  = match find to_search_string main_string with
    | Some p =>
        if p + String.length to_search_string <? String.length main_string
        then Ok (spaces_upto (S p) main_string,
                 spaces_upto (S (p + String.length to_search_string))
                   main_string)
        else Raised UnboundLocalError
    | None => Raised UnboundLocalError
    end.
Proof.
  unfold _get_word_index_range.
  destruct (find to_search_string main_string) as [p|].
  - rewrite <- Nat2Z.inj_add.
    destruct (Nat.ltb_spec (p + String.length to_search_string)
                (String.length main_string)) as [Hin|Hout].
    + rewrite (word_index_loop_before main_string 0 0 None p) by lia.
      rewrite !Nat.sub_0_r. reflexivity.
    + apply word_index_loop_out. right. simpl. lia.
  - apply word_index_loop_unset. lia.
Qed.

Lemma spaces_upto_mono (s : string) :
  ∀ k k', k ≤ k' → spaces_upto k s ≤ spaces_upto k' s.
Proof.
  induction s as [|c s IH]; intros k k' Hk.
  - destruct k, k'; simpl; lia.
  - destruct k as [|k]; [simpl; lia|].
    destruct k' as [|k']; [lia|].
    cbn [spaces_upto]. specialize (IH k k'). lia.
Qed.

Lemma spaces_upto_length (s : string) :
  ∀ k, String.length s ≤ k → spaces_upto k s = spaces_upto (String.length s) s.
Proof.
  induction s as [|c s IH]; intros k Hk.
  - destruct k; reflexivity.
  - destruct k as [|k]; [simpl in Hk; lia|].
    cbn [spaces_upto String.length] in *. rewrite (IH k) by lia. reflexivity.
Qed.

Lemma spaces_upto_total (s : string) (k : nat) :
  spaces_upto k s ≤ spaces_upto (String.length s) s.
Proof.
  destruct (Nat.le_gt_cases k (String.length s)) as [Hle|Hgt].
  - apply spaces_upto_mono, Hle.
  - rewrite (spaces_upto_length s k) by lia. lia.
Qed.

Lemma segment_indices_bound (text segment : string) (l : list nat) :
  segment_indices text segment = Ok l →
  ∀ i, i ∈ l → i < spaces_upto (String.length text) text.
Proof.
  unfold segment_indices. rewrite word_index_range_spec.
  destruct (find segment text) as [p|]; [|done].
  destruct (_ <? _); [|done].
  pose proof (spaces_upto_total text (S (p + String.length segment))) as Hb.
  revert Hb.
  generalize (spaces_upto (S (p + String.length segment)) text).
  generalize (spaces_upto (S p) text).
  intros a b Hb [= <-] i Hi. unfold range in Hi.
  apply elem_of_seq in Hi. lia.
Qed.

Lemma within_words_empty text : within_words text ∅.
Proof. intros i Hi. set_solver. Qed.

Lemma within_words_update text X l :
  within_words text X →
  (∀ i, i ∈ l → i < spaces_upto (String.length text) text) →
  within_words text (X ∪ list_to_set l).
Proof.
  intros HX Hl i Hi. apply elem_of_union in Hi as [Hi|Hi]; [by apply HX|].
  apply Hl. by apply elem_of_list_to_set in Hi.
Qed.

Lemma explanation_loop_within_words text (l : list string) :
  ∀ X, within_words text X → within_words text (explanation_loop text l X).1.
Proof.
  induction l as [|exp l IH]; intros X HX; [exact HX|].
  cbn [explanation_loop].
  destruct (segment_indices text exp) as [range|e] eqn:Hseg; [|exact HX].
  apply IH, within_words_update; [exact HX|].
  exact (segment_indices_bound _ _ _ Hseg).
Qed.

Lemma explanation_loop_acc text (l : list string) :
  ∀ X, explanation_loop text l X
       = (X ∪ (explanation_loop text l ∅).1, (explanation_loop text l ∅).2).
Proof.
  induction l as [|exp l IH]; intros X.
  - cbn [explanation_loop fst snd]. by rewrite (right_id_L ∅ (∪)).
  - cbn [explanation_loop].
    destruct (segment_indices text exp) as [range|e].
    + rewrite (IH (X ∪ _)), (IH (∅ ∪ _)). cbn [fst snd].
      by rewrite (left_id_L ∅ (∪)), (assoc_L (∪)).
    + cbn [fst snd]. by rewrite (right_id_L ∅ (∪)).
Qed.


Lemma string_prefix_refl (s : string) : String.prefix s s = true.
Proof.
  induction s as [|c s IH]; [reflexivity|].
  cbn [String.prefix]. destruct (ascii_dec c c); [exact IH|done].
Qed.

Lemma find_self (s : string) : find s s = Some 0.
Proof. destruct s; cbn [find]; by rewrite ?string_prefix_refl. Qed.

Lemma string_append_cons (current : string) (c : ascii) (s : string) :
  (current +:+ String c EmptyString) +:+ s = current +:+ String c s.
Proof.
  induction current as [|d current IH]; [reflexivity|].
  change (String d ((current +:+ String c EmptyString) +:+ s)
          = String d (current +:+ String c s)).
  by rewrite IH.
Qed.

Lemma string_append_nil_r (s : string) : s +:+ EmptyString = s.
Proof.
  induction s as [|d s IH]; [reflexivity|].
  change (String d (s +:+ EmptyString) = String d s). by rewrite IH.
Qed.

Lemma split_from_not_found (sep s : string) :
  ∀ current, find sep s = None →
    split_from sep 0 s current = [current +:+ s].
Proof.
  induction s as [|c s IH]; intros current Hfind.
  - cbn. by rewrite string_append_nil_r.
  - cbn [find] in Hfind. cbn [split_from].
    destruct (String.prefix sep (String c s)); [done|].
    destruct (find sep s); [done|].
    rewrite IH by reflexivity. by rewrite string_append_cons.
Qed.

Lemma split_not_found (sep s : string) :
  find sep s = None → split sep s = [s].
Proof. intros Hfind. unfold split. by rewrite split_from_not_found. Qed.

Lemma whole_text_raises (text : string) :
  segment_indices text text = Raised UnboundLocalError.
Proof.
  unfold segment_indices. rewrite word_index_range_spec, find_self.
  by rewrite Nat.ltb_irrefl.
Qed.

(** X10.  [_get_word_index_range] looks for the first occurrence of the
    segment.  If that occurrence ends before the last character of the
    text, the call returns the number of spaces up to and including the
    character where the occurrence starts, and the number of spaces up to
    and including the character just behind the occurrence.  In every other
    case (the segment does not occur, or its first occurrence reaches the
    end of the text) the call ends in [UnboundLocalError]. *)
Theorem X10_word_index_range (main_string to_search_string : string) :
  _get_word_index_range main_string to_search_string
  = match find to_search_string main_string with
    | Some p =>
        if p + String.length to_search_string <? String.length main_string
        then Ok (spaces_upto (S p) main_string,
                 spaces_upto (S (p + String.length to_search_string))
                   main_string)
        else Raised UnboundLocalError
    | None => Raised UnboundLocalError
    end.
Proof. exact (word_index_range_spec main_string to_search_string). Qed.

(** X11.  Whatever the switches and the text, every position that
    [_get_modifiable_indices] returns is smaller than the number of spaces
    of the text. *)
Theorem X11_modifiable_indices_within_words (self : Constraint)
    (text : string) (i : nat) :
  i ∈ (_get_modifiable_indices self text).1 →
  i < spaces_upto (String.length text) text.
Proof.
  revert i.
  change (within_words text (_get_modifiable_indices self text).1).
  unfold _get_modifiable_indices.
  set (first :=
    if modify_definition self then
      match definition_indices text with
      | Ok word_index_range => (∅ ∪ list_to_set word_index_range, [])
      | Raised _ => (∅, [] ++ ["No definition found in the text or error occured"])
      end
    else ((∅ : gset nat), ([] : list string))).
  assert (within_words text first.1) as H1.
  { subst first. destruct (modify_definition self); [|apply within_words_empty].
    destruct (definition_indices text) as [l|e] eqn:Hd; [|apply within_words_empty].
    apply within_words_update; [apply within_words_empty|].
    unfold definition_indices in Hd.
    destruct (split "Definition:" text !! 1); [|done].
    destruct (split "Negative Examples:" _ !! 0); [|done].
    exact (segment_indices_bound _ _ _ Hd). }
  destruct first as [X1 p1]. cbn [fst] in H1.
  set (second :=
    if modify_task_input self then
      match task_input_indices text with
      | Ok word_index_range => (X1 ∪ list_to_set word_index_range, p1)
      | Raised _ => (X1, p1 ++ ["No task input found in the text or error occured"])
      end
    else (X1, p1)).
  assert (within_words text second.1) as H2.
  { subst second. destruct (modify_task_input self); [|exact H1].
    destruct (task_input_indices text) as [l|e] eqn:Hd; [|exact H1].
    apply within_words_update; [exact H1|].
    unfold task_input_indices in Hd.
    destruct (last (split "Input:" text)); [|done].
    destruct (split "Output:" _ !! 0); [|done].
    exact (segment_indices_bound _ _ _ Hd). }
  destruct second as [X2 p2]. cbn [fst] in H2.
  destruct (modify_explanation self); [|exact H2].
  destruct (explanation_list text) as [l|e]; [|exact H2].
  pose proof (explanation_loop_within_words text l X2 H2) as H3.
  destruct (explanation_loop text l X2) as [X3 c]. exact H3.
Qed.

(** The theorem at work. *)
Lemma X11_modifiable_indices_within_words_witness :
  17 < spaces_upto (String.length sample_prompt) sample_prompt.
Proof.
  apply (X11_modifiable_indices_within_words (mkConstraint true true true)).
  apply (bool_decide_unpack _). vm_compute. exact I.
Defined.

(** X12.  The three switches act independently: the set returned with a
    choice of switches is the union of the sets returned with each of the
    chosen switches alone, and the messages printed are those of the three
    parts in the order definition, task input, explanations. *)
Theorem X12_modifiable_indices_by_part (d t e : bool) (text : string) :
  let part d t e := _get_modifiable_indices (mkConstraint d t e) text in
  (part d t e).1
    = (part d false false).1 ∪ (part false t false).1 ∪ (part false false e).1
  ∧ (part d t e).2
    = (part d false false).2 ++ (part false t false).2 ++ (part false false e).2.
Proof.
  intros part. subst part. unfold _get_modifiable_indices.
  cbn [modify_definition modify_task_input modify_explanation].
  destruct d, t, e; cbn [fst snd];
    repeat match goal with
    | |- context [definition_indices text] =>
        destruct (definition_indices text)
    | |- context [task_input_indices text] =>
        destruct (task_input_indices text)
    | |- context [explanation_list text] =>
        destruct (explanation_list text) as [exps|]
    end; cbn [fst snd];
    try (rewrite (explanation_loop_acc text exps (_ ∪ _));
         rewrite (explanation_loop_acc text exps ∅));
    try destruct (explanation_loop text exps ∅) as [X []]; cbn [fst snd app];
    (split; [|reflexivity]);
    apply set_eq; intros x; rewrite ?elem_of_union, ?elem_of_empty; tauto.
Qed.

(** X13.  On a text in which none of the markers [Definition:], [Input:],
    [Output:], [Positive Examples:] and [Explanation:] occurs,
    [_get_modifiable_indices] with all switches on returns the empty set:
    each of the three parts ends in an exception that is caught, and the
    three messages are printed. *)
Theorem X13_text_without_markers (text : string) :
  find "Definition:" text = None →
  find "Input:" text = None →
  find "Output:" text = None →
  find "Positive Examples:" text = None →
  find "Explanation:" text = None →
  _get_modifiable_indices (mkConstraint true true true) text
  = (∅, ["No definition found in the text or error occured";
         "No task input found in the text or error occured";
         "No explanations found in the text or error occured"]).
Proof.
  intros Hd Hi Ho Hp He.
  unfold _get_modifiable_indices, definition_indices, task_input_indices,
    explanation_list.
  cbn [modify_definition modify_task_input modify_explanation].
  rewrite (split_not_found _ _ Hd), (split_not_found _ _ Hi),
    (split_not_found _ _ Hp).
  cbn [lookup list_lookup last join String.concat].
  rewrite (split_not_found _ _ Ho), (split_not_found _ _ He).
  cbn [lookup list_lookup last].
  rewrite (split_not_found _ _ Hi). cbn [lookup list_lookup].
  rewrite whole_text_raises.
  cbn [inner length Nat.sub take drop app explanation_loop].
  rewrite whole_text_raises. reflexivity.
Qed.

(** The theorem at work. *)
Lemma X13_text_without_markers_witness :
  _get_modifiable_indices (mkConstraint true true true) "hello world"
  = (∅, ["No definition found in the text or error occured";
         "No task input found in the text or error occured";
         "No explanations found in the text or error occured"]).
Proof.
  apply (X13_text_without_markers "hello world"); reflexivity.
Defined.

End InstructionModificationFacts.
